(** * Receipt verifier: the Redis service (src/services/Redis.ts)

    A shallow embedding of the three Lua scripts registered by
    [Redis.start] and of the methods of the [Redis] class, over an
    explicit model of the Redis keyspace (string and hash values, with
    per-key expiry), followed by the properties of the receipt
    watermark tracker, the balance ledger and the proxy registry. *)

From Stdlib Require Import ZArith Lia Ascii String DecimalString DecimalZ DecimalPos.
From stdpp Require Import base option gmap strings list fin_maps.

Local Open Scope string_scope.
Local Open Scope Z_scope.

(** ** 64-bit integers and their decimal text *)

Module Int64.

Definition LLONG_MAX : Z := 2 ^ 63 - 1.
Definition LLONG_MIN : Z := - 2 ^ 63.

Definition in_range (z : Z) : bool :=
  (LLONG_MIN <=? z) && (z <=? LLONG_MAX).

(** [ll2string]: the canonical decimal text of an integer, as Redis
    stores it and as [Long.prototype.toString] prints it. *)
Definition ll2string (z : Z) : string :=
  NilZero.string_of_int (Z.to_int z).

(** [string2ll] of Redis' util.c: accepts exactly the canonical decimal
    text (no sign [+], no leading zero, no [-0], no blanks) of a value
    that fits a signed 64-bit integer. *)
Definition string2ll (s : string) : option Z :=
  match NilZero.int_of_string s with
  | Some d =>
      let z := Z.of_int d in
      if String.eqb (ll2string z) s && in_range z then Some z else None
  | None => None
  end.

(** Lua's [string.sub(s, 1, 1) == '-'] *)
Definition starts_with_minus (s : string) : bool :=
  match s with
  | String c _ => Ascii.eqb c "-"%char
  | EmptyString => false
  end.

End Int64.

Import Int64.

(** ** The [Long] values of long.js, by their numeric value

    A [Long] is carried as the integer it denotes: an unsigned Long
    denotes a value in [0, 2^64), a signed one a value in
    [-2^63, 2^63). *)

Module Long.

Definition MAX_VALUE : Z := LLONG_MAX.
Definition UZERO : Z := 0.

Definition isNegative (a : Z) : bool := a <? 0.

(** [a.compare(b)]: 0, 1 or -1 *)
Definition compare (a b : Z) : Z :=
  if a =? b then 0 else if a <? b then -1 else 1.

Definition toString (a : Z) : string := ll2string a.

(** [Long.fromString] on the texts the scripts return: canonical
    decimal integers within the signed 64-bit range. What long.js makes
    of any other text is not modelled ([None]). *)
Definition fromString (s : string) : option Z := string2ll s.

End Long.

(** ** The Redis keyspace *)

Inductive rvalue : Type :=
| RString (s : string)
| RHash (h : gmap string string).

(** A key holds a value and, optionally, the time at which it expires. *)
Record entry : Type := Entry {
  e_value : rvalue;
  e_expire : option Z
}.

Abbreviation db := (gmap string entry).

Inductive redis_error : Type :=
| WRONGTYPE
| ERR_not_an_integer
| ERR_would_overflow
| ERR_invalid_expire_time
| ERR_reply (msg : string).

(** A JavaScript number, by what the store reads when the client sends it
    as a command argument: [Integral z] is a number whose value is the
    integer [z] (sent as the decimal text of [z] while [z] is below 10^21
    in magnitude and in exponent form from there on, which the store
    refuses like every integer outside the signed 64-bit range);
    [Unreadable] is every other number that is not NaN (a fraction such
    as 1.5, Infinity), whose text the store does not read as an integer. *)
Inductive js_number : Type :=
| Integral (z : Z)
| Unreadable.

(** [Number(text)] for the decimal text of an integer: the nearest
    double, ties to the even significand; Infinity from 2^1024 on. *)
Definition Number_of_integer_text (z : Z) : js_number :=
  let a := Z.abs z in
  if a <? 2 ^ 53 then Integral z
  else
    let e := Z.log2 a - 52 in
    let q := Z.shiftr a e in
    let r := a mod 2 ^ e in
    let half := 2 ^ (e - 1) in
    let q' := if (half <? r) || ((r =? half) && Z.odd q) then q + 1 else q in
    if 2 ^ 1024 <=? q' * 2 ^ e then Unreadable
    else Integral (Z.sgn z * (q' * 2 ^ e)).

Inductive reply (A : Type) : Type :=
| Ok (a : A)
| Error (e : redis_error).
Arguments Ok {A} a.
Arguments Error {A} e.

Section Commands.

(** The time at which the command runs. *)
Variable now : Z.

(** A key with expiry time [t] is there as long as [now < t]. *)
Definition unexpired (ex : option Z) : bool :=
  match ex with
  | None => true
  | Some t => now <? t
  end.

Definition alive (e : entry) : bool := unexpired (e_expire e).

(** A key whose expiry has passed is not there any more. *)
Definition lookupKey (d : db) (k : string) : option entry :=
  match d !! k with
  | Some e => if alive e then Some e else None
  | None => None
  end.

Definition cmd_exists (d : db) (k : string) : bool :=
  match lookupKey d k with Some _ => true | None => false end.

Definition cmd_get (d : db) (k : string) : reply (option string) :=
  match lookupKey d k with
  | None => Ok None
  | Some (Entry (RString s) _) => Ok (Some s)
  | Some (Entry (RHash _) _) => Error WRONGTYPE
  end.

(** [SET k v] and [SET k v EX seconds]: replaces whatever the key held,
    expiry included. *)
Definition cmd_set (d : db) (k v : string) (ex : option Z) : db :=
  <[k := Entry (RString v) ((fun s => now + s) <$> ex)]> d.

Definition cmd_del (d : db) (k : string) : db := delete k d.

Definition cmd_hget (d : db) (k f : string) : reply (option string) :=
  match lookupKey d k with
  | None => Ok None
  | Some (Entry (RHash h) _) => Ok (h !! f)
  | Some (Entry (RString _) _) => Error WRONGTYPE
  end.

(** [HSET k f v]: creates the hash when the key is absent; the expiry
    of an existing key is kept. *)
Definition cmd_hset (d : db) (k f v : string) : reply db :=
  match lookupKey d k with
  | None => Ok (<[k := Entry (RHash {[f := v]}) None]> d)
  | Some (Entry (RHash h) ex) => Ok (<[k := Entry (RHash (<[f := v]> h)) ex]> d)
  | Some (Entry (RString _) _) => Error WRONGTYPE
  end.

(** The overflow test of [incrDecrCommand] (t_string.c) *)
Definition would_overflow (oldvalue incr : Z) : bool :=
  ((incr <? 0) && (oldvalue <? 0) && (incr <? LLONG_MIN - oldvalue))
  || ((0 <? incr) && (0 <? oldvalue) && (LLONG_MAX - oldvalue <? incr)).

(** [incrDecrCommand]: an absent key counts as 0; the expiry of an
    existing key is kept. *)
Definition incrDecr (d : db) (k : string) (incr : Z) : reply db :=
  match lookupKey d k with
  | Some (Entry (RHash _) _) => Error WRONGTYPE
  | Some (Entry (RString s) ex) =>
      match string2ll s with
      | None => Error ERR_not_an_integer
      | Some oldvalue =>
          if would_overflow oldvalue incr then Error ERR_would_overflow
          else Ok (<[k := Entry (RString (ll2string (oldvalue + incr))) ex]> d)
      end
  | None => Ok (<[k := Entry (RString (ll2string incr)) None]> d)
  end.

Definition cmd_incrby (d : db) (k incr : string) : reply db :=
  match string2ll incr with
  | None => Error ERR_not_an_integer
  | Some i => incrDecr d k i
  end.

Definition cmd_decrby (d : db) (k decr : string) : reply db :=
  match string2ll decr with
  | None => Error ERR_not_an_integer
  | Some i =>
      if i =? LLONG_MIN then Error ERR_would_overflow
      else incrDecr d k (- i)
  end.

(** The timeouts EXPIRE accepts at time [now] (expire.c): the timeout in
    milliseconds and the expiry time, [now * 1000] milliseconds later,
    must both fit the signed 64-bit range; C divides towards zero. *)
Definition expire_accepts (seconds : Z) : bool :=
  in_range seconds
  && negb ((LLONG_MAX ÷ 1000 <? seconds) || (seconds <? LLONG_MIN ÷ 1000))
  && negb (LLONG_MAX - now * 1000 <? seconds * 1000).

(** [EXPIRE k seconds], with the timeout as the client sends it. A
    timeout that is not a signed 64-bit integer, or whose expiry time
    overflows, is refused before the key is looked up. Otherwise an
    absent key is left absent, a timeout that is not in the future
    deletes the key, and any other sets the expiry. *)
Definition cmd_expire (d : db) (k : string) (seconds : js_number) : reply db :=
  match seconds with
  | Unreadable => Error ERR_not_an_integer
  | Integral s =>
      if negb (in_range s) then Error ERR_not_an_integer
      else if negb (expire_accepts s) then Error ERR_invalid_expire_time
      else
        match lookupKey d k with
        | None => Ok d
        | Some (Entry v _) =>
            if s <=? 0 then Ok (delete k d)
            else Ok (<[k := Entry v (Some (now + s))]> d)
        end
  end.

End Commands.

(** ** Lua scripts

    A script is a state transformer over the keyspace. An error raised by
    [redis.call] ends the script; what the script wrote before the error
    stays written (Redis does not roll a script back). *)

Definition Script (A : Type) : Type := db -> db * reply A.

Definition ret {A} (a : A) : Script A := fun d => (d, Ok a).

Definition bind {A B} (m : Script A) (f : A -> Script B) : Script B :=
  fun d =>
    match m d with
    | (d', Ok a) => f a d'
    | (d', Error e) => (d', Error e)
    end.

Notation "'let*' x ':=' m 'in' f" := (bind m (fun x => f))
  (at level 10, x name, m at level 100, f at level 200).

(** [redis.call] of a command that only reads *)
Definition call_read {A} (c : db -> reply A) : Script A :=
  fun d => (d, c d).

(** [redis.call] of a command that writes; its reply is not used *)
Definition call_write (c : db -> reply db) : Script unit :=
  fun d =>
    match c d with
    | Ok d' => (d', Ok tt)
    | Error e => (d, Error e)
    end.

Definition error_reply {A} (msg : string) : Script A :=
  fun d => (d, Error (ERR_reply msg)).

(** [string.sub] applied to [false] (a nil reply) *)
Definition bad_argument : string := "bad argument #1 to 'sub' (string expected, got boolean)".

Definition BALANCE_KEY : string := "ilpBalances".
Definition RECEIPT_KEY : string := "ilpReceipts".
Definition TEMP_KEY : string := "ilpTemp".

Section Scripts.

Variable now : Z.

Definition lua_getReceiptValue (KEYS1 KEYS2 ARGV1 ARGV2 : string) : Script string :=
  let streamId := ARGV1 in
  let amount := ARGV2 in
  let* prevAmount := call_read (fun d => cmd_hget now d KEYS1 streamId) in
  match prevAmount with
  | Some prevAmount =>
      let tempKey := KEYS2 in
      let* _ := call_write (fun d => Ok (cmd_set now d tempKey amount (Some 1))) in
      let* _ := call_write (fun d => cmd_decrby now d tempKey prevAmount) in
      let* diff := call_read (fun d => cmd_get now d tempKey) in
      match diff with
      | Some diff =>
          if starts_with_minus diff then ret "0"
          else
            let* _ := call_write (fun d => cmd_hset now d KEYS1 streamId amount) in
            ret diff
      | None => error_reply bad_argument
      end
  | None =>
      let* _ := call_write (fun d => cmd_hset now d KEYS1 streamId amount) in
      ret amount
  end.

Definition lua_creditBalance (KEYS1 ARGV1 : string) : Script (option string) :=
  let amount := ARGV1 in
  let* _ := call_write (fun d => cmd_incrby now d KEYS1 amount) in
  call_read (fun d => cmd_get now d KEYS1).

Definition lua_spendBalance (KEYS1 ARGV1 : string) : Script string :=
  let* present := call_read (fun d => cmd_get now d KEYS1) in
  match present with
  | Some _ =>
      let amount := ARGV1 in
      let* _ := call_write (fun d => cmd_decrby now d KEYS1 amount) in
      let* balance := call_read (fun d => cmd_get now d KEYS1) in
      match balance with
      | Some balance =>
          if starts_with_minus balance then
            let* _ := call_write (fun d => cmd_incrby now d KEYS1 amount) in
            error_reply "insufficient balance"
          else ret balance
      | None => error_reply bad_argument
      end
  | None => error_reply "balance does not exist"
  end.

End Scripts.

(** ** The [Redis] service class *)

(** src/services/Config.ts, the field the service reads: a JavaScript
    number. *)
Record Config : Type := { receiptTTLSeconds : js_number }.

(** [Number(env.RECEIPT_TTL) || 300], given what [Number(env.RECEIPT_TTL)]
    is: [None] stands for NaN (the variable is unset, or its text is not
    a number). NaN and 0 are falsy and give the default. *)
Definition Config_of_env (RECEIPT_TTL : option js_number) : Config :=
  {| receiptTTLSeconds :=
       match RECEIPT_TTL with
       | Some (Integral n) => if n =? 0 then Integral 300 else Integral n
       | Some Unreadable => Unreadable
       | None => Integral 300
       end |}.

(** The [Receipt] of ilp-protocol-stream: [nonce] is the base64 text of
    the nonce buffer, [totalReceived] the value of an unsigned Long. *)
Record Receipt : Type := {
  nonce : string;
  streamId : string;
  totalReceived : Z
}.

Inductive js_error : Type :=
| JsError (message : string)
| ReplyError (e : redis_error).

(** How an awaited call ends. *)
Inductive outcome (A : Type) : Type :=
| Resolved (a : A)
| Rejected (e : js_error).
Arguments Resolved {A} a.
Arguments Rejected {A} e.

(** The error kinds of the specification, as the errors thrown. *)
Definition AmountOverflow : js_error :=
  JsError "receipt amount exceeds max 64 bit signed integer".
Definition BalanceOverflow : js_error :=
  JsError "balance cannot exceed max 64 bit signed integer".
Definition BalanceNotFound : js_error :=
  ReplyError (ERR_reply "balance does not exist").
Definition InsufficientBalance : js_error :=
  ReplyError (ERR_reply "insufficient balance").
Definition NotFound : js_error := JsError "pointer not found".
Definition InvalidPointer : js_error := JsError "Invalid URL".

Definition receiptKey (nonce : string) : string := RECEIPT_KEY +:+ ":" +:+ nonce.
Definition tempKey (uuid : string) : string := TEMP_KEY +:+ ":" +:+ uuid.
Definition balanceKey (id : string) : string := BALANCE_KEY +:+ ":" +:+ id.

Section Service.

Variable config : Config.

(** [setReceiptTTL]: its two awaited calls reach the store one after the
    other, HSET at [now_hset] and EXPIRE at [now_expire]. When EXPIRE is
    refused the method rejects and what HSET wrote stays. *)
Definition setReceiptTTL_timed (now_hset now_expire : Z) (nonce : string)
    (d : db) : db * outcome unit :=
  let key := receiptKey nonce in
  match cmd_hset now_hset d key "dummy" "0" with
  | Ok d1 =>
      match cmd_expire now_expire d1 key (receiptTTLSeconds config) with
      | Ok d2 => (d2, Resolved tt)
      | Error e => (d1, Rejected (ReplyError e))
      end
  | Error e => (d, Rejected (ReplyError e))
  end.

(** [getReceiptValue]: its two awaited calls reach the store one after
    the other, EXISTS at [now_exists] and the script at [now_script].
    [uuid] is the value [uuidv4()] returns in this call. *)
Definition getReceiptValue_timed (now_exists now_script : Z) (uuid : string)
    (receipt : Receipt) (d : db) : db * outcome Z :=
  if Long.compare (totalReceived receipt) Long.MAX_VALUE =? 1 then
    (d, Rejected AmountOverflow)
  else
    let key := receiptKey (nonce receipt) in
    if cmd_exists now_exists d key then
      let tempKey := tempKey uuid in
      match lua_getReceiptValue now_script key tempKey (streamId receipt)
              (Long.toString (totalReceived receipt)) d with
      | (d', Ok value) =>
          match Long.fromString value with
          | Some v => (d', Resolved v)
          | None => (d', Rejected (JsError "Long.fromString"))
          end
      | (d', Error e) => (d', Rejected (ReplyError e))
      end
    else (d, Resolved Long.UZERO).

(** The time at which a call reaches the store, for the calls below whose
    store commands all run at one instant. *)
Variable now : Z.

(** The two methods above when no time passes between their two store
    calls. *)
Definition setReceiptTTL (nonce : string) (d : db) : db * outcome unit :=
  setReceiptTTL_timed now now nonce d.

Definition getReceiptValue (uuid : string) (receipt : Receipt) (d : db)
  : db * outcome Z :=
  getReceiptValue_timed now now uuid receipt d.

Definition creditBalance (id : string) (amount : Z) (d : db) : db * outcome Z :=
  if Long.isNegative amount then
    (d, Rejected (JsError "credit amount must not be negative"))
  else if Long.compare amount Long.MAX_VALUE =? 1 then
    (d, Rejected (JsError "credit amount exceeds max 64 bit signed integer"))
  else
    let key := balanceKey id in
    match lua_creditBalance now key (Long.toString amount) d with
    | (d', Ok (Some balance)) =>
        match Long.fromString balance with
        | Some v => (d', Resolved v)
        | None => (d', Rejected BalanceOverflow)
        end
    | (d', Ok None) => (d', Rejected BalanceOverflow)
    | (d', Error _) => (d', Rejected BalanceOverflow)
    end.

Definition spendBalance (id : string) (amount : Z) (d : db) : db * outcome Z :=
  if Long.isNegative amount then
    (d, Rejected (JsError "spend amount must not be negative"))
  else if Long.compare amount Long.MAX_VALUE =? 1 then
    (d, Rejected (JsError "spend amount exceeds max 64 bit signed integer"))
  else
    let key := balanceKey id in
    match lua_spendBalance now key (Long.toString amount) d with
    | (d', Ok balance) =>
        match Long.fromString balance with
        | Some v => (d', Resolved v)
        | None => (d', Rejected (JsError "Long.fromString"))
        end
    | (d', Error e) => (d', Rejected (ReplyError e))
    end.

(** [new URL(s).href], [None] when the constructor throws, and the hex
    SHA-256 digest: both come from the Node.js runtime. *)
Variable URL_href : string -> option string.
Variable sha256_hex : string -> string.

(** [pointer.startsWith('$') ? 'https://' + pointer.substring(1) : pointer] *)
Definition expandPointer (pointer : string) : string :=
  match pointer with
  | String c rest => if Ascii.eqb c "$"%char then "https://" +:+ rest else pointer
  | EmptyString => pointer
  end.

Definition createProxy (pointer : string) (d : db) : db * outcome string :=
  match URL_href (expandPointer pointer) with
  | None => (d, Rejected InvalidPointer)
  | Some href =>
      let hashedPointer := sha256_hex pointer in
      (cmd_set now d hashedPointer href None, Resolved hashedPointer)
  end.

(** [if (pointer)]: [null] and the empty string are falsy. *)
Definition getPointer (hashedPointer : string) (d : db) : db * outcome string :=
  match cmd_get now d hashedPointer with
  | Ok (Some pointer) =>
      if String.eqb pointer "" then (d, Rejected NotFound)
      else (d, Resolved pointer)
  | Ok None => (d, Rejected NotFound)
  | Error e => (d, Rejected (ReplyError e))
  end.

Definition deleteProxy (hashedPointer : string) (d : db) : db * outcome unit :=
  (cmd_del d hashedPointer, Resolved tt).

End Service.

(** ** Sequences of calls *)

(** One [getReceiptValue] call of a run: the time it reaches the store,
    the UUID drawn for its scratch key, the cumulative total it carries. *)
Record receipt_call : Type := {
  c_now : Z;
  c_uuid : string;
  c_total : Z
}.

(** Sequential [getReceiptValue] calls for one (nonce, streamId). *)
Fixpoint creditableAmounts (n sid : string) (calls : list receipt_call) (d : db)
  : db * list (outcome Z) :=
  match calls with
  | [] => (d, [])
  | c :: rest =>
      let r := getReceiptValue (c_now c) (c_uuid c)
                 {| nonce := n; streamId := sid; totalReceived := c_total c |} d in
      let rs := creditableAmounts n sid rest (fst r) in
      (fst rs, snd r :: snd rs)
  end.

(** The sum of the deltas that were returned. *)
Fixpoint sum_deltas (os : list (outcome Z)) : Z :=
  match os with
  | [] => 0
  | Resolved v :: rest => v + sum_deltas rest
  | Rejected _ :: rest => sum_deltas rest
  end.

Definition all_resolved {A} (os : list (outcome A)) : Prop :=
  Forall (fun o => exists v, o = Resolved v) os.

(** [w <= t1 <= t2 <= ...] *)
Fixpoint non_decreasing_from (w : Z) (totals : list Z) : Prop :=
  match totals with
  | [] => True
  | t :: rest => w <= t /\ non_decreasing_from t rest
  end.

Definition last_total (w : Z) (totals : list Z) : Z := List.last totals w.

(** The watermark the record holds for a stream, read as a number; a
    stream without a field counts as 0. *)
Definition watermarkValue (now : Z) (d : db) (n sid : string) : option Z :=
  match cmd_hget now d (receiptKey n) sid with
  | Ok (Some prev) => string2ll prev
  | Ok None => Some 0
  | Error _ => None
  end.

Inductive ledger_op : Type :=
| Credit (amount : Z)
| Spend (amount : Z).

Definition apply_op (now : Z) (id : string) (op : ledger_op) (d : db)
  : db * outcome Z :=
  match op with
  | Credit a => creditBalance now id a d
  | Spend a => spendBalance now id a d
  end.

(** The state of a run of the ledger: the store, and the amounts
    credited and spent by the calls that succeeded. *)
Record ledger_run : Type := {
  l_db : db;
  l_credited : Z;
  l_spent : Z
}.

Definition ledger_step (id : string) (r : ledger_run) (c : Z * ledger_op)
  : ledger_run :=
  let (now, op) := c in
  match apply_op now id op (l_db r), op with
  | (d', Resolved _), Credit a =>
      {| l_db := d'; l_credited := l_credited r + a; l_spent := l_spent r |}
  | (d', Resolved _), Spend a =>
      {| l_db := d'; l_credited := l_credited r; l_spent := l_spent r + a |}
  | (d', Rejected _), _ =>
      {| l_db := d'; l_credited := l_credited r; l_spent := l_spent r |}
  end.

Definition run_ledger (id : string) (ops : list (Z * ledger_op)) (d : db)
  : ledger_run :=
  fold_left (ledger_step id) ops {| l_db := d; l_credited := 0; l_spent := 0 |}.

(** The stored balance read as a number, 0 when the key is absent. *)
Definition balanceValue (now : Z) (d : db) (id : string) : option Z :=
  match cmd_get now d (balanceKey id) with
  | Ok (Some s) => string2ll s
  | Ok None => Some 0
  | Error _ => None
  end.

(** A balance record as the ledger keeps it: no record, or the decimal
    text of a value between 0 and 2^63-1, which never expires. *)
Definition valid_balance (d : db) (id : string) (b : Z) : Prop :=
  (d !! balanceKey id = None /\ b = 0) \/
  (d !! balanceKey id = Some (Entry (RString (ll2string b)) None)
   /\ 0 <= b <= LLONG_MAX).

(** The watermark a record's hash [h] holds for a stream: the number its
    field reads as, 0 when the stream has no field yet. *)
Definition stored_watermark (h : gmap string string) (sid : string) (w : Z) : Prop :=
  match h !! sid with
  | Some prev => string2ll prev = Some w /\ 0 <= w
  | None => w = 0
  end.

(** ** The scenario of the specification's examples *)

Module Scenario.

Definition config : Config := Config_of_env None.

Definition receipt (sid : string) (total : Z) : Receipt :=
  {| nonce := "r1"; streamId := sid; totalReceived := total |}.

Definition call (now : Z) (uuid : string) (total : Z) : receipt_call :=
  {| c_now := now; c_uuid := uuid; c_total := total |}.

(** [setReceiptTTL("r1")] on an empty store at time 0 *)
Definition registered : db := fst (setReceiptTTL config 0 "r1" ∅).

(** then a receipt of stream s1 with total 10, *)
Definition credited10 : db :=
  fst (getReceiptValue 1 "uuid-1" (receipt "s1" 10) registered).

(** then one with total 15. *)
Definition credited15 : db :=
  fst (getReceiptValue 2 "uuid-2" (receipt "s1" 15) credited10).

(** The same registration followed by a receipt of a stream whose
    identifier is the text "dummy", with total 10, and then by a second
    registration of the receipt. *)
Definition dummy_credited : db :=
  fst (getReceiptValue 1 "uuid-1" (receipt "dummy" 10) registered).

Definition dummy_reregistered : db :=
  fst (setReceiptTTL config 2 "r1" dummy_credited).

(** Stand-ins for the two runtime functions of the proxy registry: a
    parser that accepts the texts starting with "https://" and returns
    them as they are, and a digest that is the identity. *)
Definition href_of_https (s : string) : option string :=
  if String.prefix "https://" s then Some s else None.

Definition digest_stand_in (s : string) : string := s.

(** A balance key overwritten, from outside the service, with a text
    that is not a number. *)
Definition garbled : db := {[ balanceKey "acct1" := Entry (RString "ten") None ]}.

(** The ledger example: credit 10, credit 5, spend 20, spend 15. *)
Definition ledger_ops : list (Z * ledger_op) :=
  [(1, Credit 10); (2, Credit 5); (3, Spend 20); (4, Spend 15)].

End Scenario.

(** ** The rest of the service *)

(** [flushdb]: FLUSHDB removes every key of the database. *)
Definition flushdb (d : db) : db * outcome unit := (∅, Resolved tt).

(** One [getReceiptValue] call of a run with the instants of its two
    store calls. *)
Record timed_call : Type := {
  t_exists : Z;
  t_script : Z;
  t_uuid : string;
  t_total : Z
}.

(** Sequential [getReceiptValue] calls for one (nonce, streamId), each
    with its two instants. *)
Fixpoint creditableAmounts_timed (n sid : string) (calls : list timed_call)
    (d : db) : db * list (outcome Z) :=
  match calls with
  | [] => (d, [])
  | c :: rest =>
      let r := getReceiptValue_timed (t_exists c) (t_script c) (t_uuid c)
                 {| nonce := n; streamId := sid; totalReceived := t_total c |} d in
      let rs := creditableAmounts_timed n sid rest (fst r) in
      (fst rs, snd r :: snd rs)
  end.

(** The highest of a watermark and the totals of a run. *)
Definition highest (w : Z) (totals : list Z) : Z := fold_left Z.max totals w.

(** [d'] differs from [d] at key [k] at most. *)
Definition only_key (k : string) (d d' : db) : Prop :=
  forall k', k' <> k -> d' !! k' = d !! k'.

(** The alphabet of [digest('hex')]: digits and lower-case a to f. *)
Definition is_hex_digit (c : ascii) : bool :=
  let n := Z.of_nat (nat_of_ascii c) in
  ((48 <=? n) && (n <=? 57)) || ((97 <=? n) && (n <=? 102)).

Fixpoint hex_text (s : string) : bool :=
  match s with
  | EmptyString => true
  | String c rest => is_hex_digit c && hex_text rest
  end.

(** ** Further inputs for the examples *)

Module Cases.

(** Four receipts of stream s1 arriving out of order. *)
Definition shuffled : list receipt_call :=
  [Scenario.call 1 "uuid-1" 15; Scenario.call 2 "uuid-2" 5;
   Scenario.call 3 "uuid-3" 20; Scenario.call 4 "uuid-4" 10].

(** The same four receipts with the instants of their two store calls. *)
Definition shuffled_timed : list timed_call :=
  [{| t_exists := 1; t_script := 2; t_uuid := "uuid-1"; t_total := 15 |};
   {| t_exists := 3; t_script := 3; t_uuid := "uuid-2"; t_total := 5 |};
   {| t_exists := 4; t_script := 6; t_uuid := "uuid-3"; t_total := 20 |};
   {| t_exists := 298; t_script := 299; t_uuid := "uuid-4"; t_total := 10 |}].

(** A store with the one balance 15. *)
Definition balance15 : db :=
  {[ balanceKey "acct1" := Entry (RString "15") None ]}.

(** A store with the one balance 2^63-1. *)
Definition balance_max : db :=
  {[ balanceKey "acct1" := Entry (RString "9223372036854775807") None ]}.

(** A stand-in for the digest whose values are hexadecimal texts. *)
Definition hex_stand_in (s : string) : string :=
  if String.prefix "$" s then "c0ffee" else "decaf0".

End Cases.

(** ** Decimal text *)

Lemma to_int_proper (z : Z) :
  Z.to_int z <> Decimal.Pos Decimal.Nil /\ Z.to_int z <> Decimal.Neg Decimal.Nil.
Proof.
  destruct z as [|p|p]; simpl; split; try discriminate;
    intros [=H]; exact (Unsigned.to_uint_nonnil p H).
Qed.

Lemma int_of_ll2string (z : Z) :
  NilZero.int_of_string (ll2string z) = Some (Z.to_int z).
Proof.
  unfold ll2string. destruct (to_int_proper z) as [Hp Hn].
  now apply NilZero.isi.
Qed.

Lemma string2ll_ll2string (z : Z) :
  in_range z = true -> string2ll (ll2string z) = Some z.
Proof.
  intros Hr. unfold string2ll. rewrite int_of_ll2string.
  cbv zeta. rewrite DecimalZ.of_to, String.eqb_refl, Hr. reflexivity.
Qed.

Lemma string2ll_Some (s : string) (z : Z) :
  string2ll s = Some z -> ll2string z = s /\ in_range z = true.
Proof.
  unfold string2ll. destruct (NilZero.int_of_string s) as [i|]; [|discriminate].
  cbv zeta.
  destruct (String.eqb (ll2string (Z.of_int i)) s) eqn:He; [|discriminate].
  destruct (in_range (Z.of_int i)) eqn:Hr; [|discriminate].
  intros [= <-]. apply String.eqb_eq in He. auto.
Qed.

Lemma in_range_bounds (z : Z) :
  in_range z = true <-> LLONG_MIN <= z <= LLONG_MAX.
Proof. unfold in_range. rewrite andb_true_iff, !Z.leb_le. tauto. Qed.

Lemma uint_text_no_minus (u : Decimal.uint) :
  starts_with_minus (NilZero.string_of_uint u) = false.
Proof. destruct u; reflexivity. Qed.

Lemma starts_with_minus_ll2string (z : Z) :
  starts_with_minus (ll2string z) = (z <? 0).
Proof.
  unfold ll2string. destruct z as [|p|p]; simpl Z.to_int; cbn [NilZero.string_of_int].
  - reflexivity.
  - apply uint_text_no_minus.
  - reflexivity.
Qed.

(** ** Keys *)

Lemma tempKey_receiptKey (u n : string) : tempKey u <> receiptKey n.
Proof. unfold tempKey, receiptKey. cbn. discriminate. Qed.

(** ** Commands *)

Lemma lookupKey_insert_eq now (d : db) k e :
  lookupKey now (<[k := e]> d) k = if alive now e then Some e else None.
Proof. unfold lookupKey. by rewrite lookup_insert_eq. Qed.

Lemma lookupKey_insert_ne now (d : db) k k' e :
  k <> k' -> lookupKey now (<[k := e]> d) k' = lookupKey now d k'.
Proof. intros H. unfold lookupKey. by rewrite lookup_insert_ne. Qed.

Lemma lookupKey_Some now (d : db) k e :
  lookupKey now d k = Some e <-> d !! k = Some e /\ alive now e = true.
Proof.
  unfold lookupKey. split.
  - destruct (d !! k) as [e'|]; [|discriminate].
    destruct (alive now e') eqn:Ha; [|discriminate]. intros [= ->]. auto.
  - intros [-> ->]. reflexivity.
Qed.

Lemma lookupKey_raw_None now (d : db) k :
  d !! k = None -> lookupKey now d k = None.
Proof. unfold lookupKey. by intros ->. Qed.

Lemma unexpired_fresh now s : 0 < s -> unexpired now (Some (now + s)) = true.
Proof. intros. cbn. apply Z.ltb_lt. lia. Qed.

Lemma would_overflow_spec (oldvalue incr : Z) :
  in_range oldvalue = true -> in_range incr = true ->
  would_overflow oldvalue incr = negb (in_range (oldvalue + incr)).
Proof.
  intros Ho%in_range_bounds Hi%in_range_bounds.
  unfold would_overflow, in_range, LLONG_MIN, LLONG_MAX in *.
  repeat match goal with
         | |- context [?a <? ?b] => destruct (Z.ltb_spec a b)
         | |- context [?a <=? ?b] => destruct (Z.leb_spec a b)
         end; cbn; try reflexivity; lia.
Qed.

Lemma incrDecr_present now (d : db) k s ex oldvalue incr :
  lookupKey now d k = Some (Entry (RString s) ex) ->
  string2ll s = Some oldvalue ->
  in_range incr = true ->
  incrDecr now d k incr =
    if in_range (oldvalue + incr)
    then Ok (<[k := Entry (RString (ll2string (oldvalue + incr))) ex]> d)
    else Error ERR_would_overflow.
Proof.
  intros Hk Hs Hi. unfold incrDecr. rewrite Hk, Hs.
  rewrite would_overflow_spec; [|by apply string2ll_Some in Hs as [_ ?]|done].
  by destruct (in_range (oldvalue + incr)).
Qed.

Lemma incrDecr_absent now (d : db) k incr :
  lookupKey now d k = None ->
  incrDecr now d k incr = Ok (<[k := Entry (RString (ll2string incr)) None]> d).
Proof. intros Hk. unfold incrDecr. by rewrite Hk. Qed.

Lemma cmd_get_insert_string now (d : db) k s ex :
  unexpired now ex = true ->
  cmd_get now (<[k := Entry (RString s) ex]> d) k = Ok (Some s).
Proof.
  intros Ha. unfold cmd_get. rewrite lookupKey_insert_eq.
  unfold alive. cbn [e_expire]. by rewrite Ha.
Qed.

Lemma amount_in_range (a : Z) : 0 <= a <= LLONG_MAX -> in_range a = true.
Proof. intros. apply in_range_bounds. unfold LLONG_MIN, LLONG_MAX in *. lia. Qed.

Lemma compare_MAX_VALUE (a : Z) :
  (Long.compare a Long.MAX_VALUE =? 1) = (LLONG_MAX <? a).
Proof.
  unfold Long.compare, Long.MAX_VALUE.
  destruct (Z.eqb_spec a LLONG_MAX), (Z.ltb_spec a LLONG_MAX),
    (Z.ltb_spec LLONG_MAX a); try reflexivity; lia.
Qed.

(** ** The receipt script *)

Lemma lua_getReceiptValue_known now key tk sid t h ex prev w (d : db) :
  tk <> key ->
  lookupKey now d key = Some (Entry (RHash h) ex) ->
  h !! sid = Some prev -> string2ll prev = Some w ->
  0 <= t <= LLONG_MAX -> 0 <= w ->
  lua_getReceiptValue now key tk sid (ll2string t) d =
    let d2 := <[tk := Entry (RString (ll2string (t - w))) (Some (now + 1))]> d in
    if t <? w then (d2, Ok "0")
    else (<[key := Entry (RHash (<[sid := ll2string t]> h)) ex]> d2,
          Ok (ll2string (t - w))).
Proof.
  intros Hne Hk Hf Hw Ht Hw0.
  destruct (string2ll_Some _ _ Hw) as [_ Hwr%in_range_bounds].
  assert (Hrw : in_range (- w) = true)
    by (apply in_range_bounds; unfold LLONG_MIN, LLONG_MAX in *; lia).
  assert (Hrd : in_range (t + - w) = true)
    by (apply in_range_bounds; unfold LLONG_MIN, LLONG_MAX in *; lia).
  unfold lua_getReceiptValue, bind, call_read, call_write, ret.
  unfold cmd_hget at 1. rewrite Hk, Hf.
  unfold cmd_set, cmd_decrby. rewrite Hw. cbn [fmap option_fmap option_map].
  destruct (Z.eqb_spec w LLONG_MIN) as [->|_]; [unfold LLONG_MIN in *; lia|].
  erewrite incrDecr_present;
    [|rewrite lookupKey_insert_eq; unfold alive; cbn [e_expire];
      rewrite unexpired_fresh by lia; reflexivity
     |by apply string2ll_ll2string, amount_in_range|done].
  rewrite Hrd, insert_insert_eq.
  rewrite cmd_get_insert_string by (apply unexpired_fresh; lia).
  rewrite starts_with_minus_ll2string. cbv zeta.
  replace (t + - w) with (t - w) by lia.
  destruct (Z.ltb_spec (t - w) 0), (Z.ltb_spec t w); try lia; [reflexivity|].
  unfold cmd_hset. rewrite lookupKey_insert_ne, Hk by done. reflexivity.
Qed.

Lemma lua_getReceiptValue_first now key tk sid amount h ex (d : db) :
  lookupKey now d key = Some (Entry (RHash h) ex) ->
  h !! sid = None ->
  lua_getReceiptValue now key tk sid amount d =
    (<[key := Entry (RHash (<[sid := amount]> h)) ex]> d, Ok amount).
Proof.
  intros Hk Hf.
  unfold lua_getReceiptValue, bind, call_read, call_write, ret.
  unfold cmd_hget. rewrite Hk, Hf. cbv beta.
  unfold cmd_hset. rewrite Hk. reflexivity.
Qed.

(** ** [getReceiptValue] *)

Lemma getReceiptValue_known now uuid r h ex prev w (d : db) :
  lookupKey now d (receiptKey (nonce r)) = Some (Entry (RHash h) ex) ->
  h !! streamId r = Some prev -> string2ll prev = Some w ->
  0 <= totalReceived r <= LLONG_MAX -> 0 <= w ->
  getReceiptValue now uuid r d =
    let t := totalReceived r in
    let d2 := <[tempKey uuid := Entry (RString (ll2string (t - w))) (Some (now + 1))]> d in
    if t <? w then (d2, Resolved 0)
    else (<[receiptKey (nonce r) :=
              Entry (RHash (<[streamId r := ll2string t]> h)) ex]> d2,
          Resolved (t - w)).
Proof.
  intros Hk Hf Hw Ht Hw0. unfold getReceiptValue, getReceiptValue_timed.
  rewrite compare_MAX_VALUE.
  destruct (Z.ltb_spec LLONG_MAX (totalReceived r)); [lia|].
  unfold cmd_exists. rewrite Hk. unfold Long.toString.
  rewrite (lua_getReceiptValue_known now _ _ _ _ h ex prev w)
    by auto using tempKey_receiptKey.
  cbv zeta. destruct (Z.ltb_spec (totalReceived r) w).
  - reflexivity.
  - unfold Long.fromString. rewrite string2ll_ll2string; [reflexivity|].
    destruct (string2ll_Some _ _ Hw) as [_ Hwr%in_range_bounds].
    apply in_range_bounds. unfold LLONG_MIN, LLONG_MAX in *. lia.
Qed.

Lemma getReceiptValue_first now uuid r h ex (d : db) :
  lookupKey now d (receiptKey (nonce r)) = Some (Entry (RHash h) ex) ->
  h !! streamId r = None ->
  0 <= totalReceived r <= LLONG_MAX ->
  getReceiptValue now uuid r d =
    (<[receiptKey (nonce r) :=
         Entry (RHash (<[streamId r := ll2string (totalReceived r)]> h)) ex]> d,
     Resolved (totalReceived r)).
Proof.
  intros Hk Hf Ht. unfold getReceiptValue, getReceiptValue_timed.
  rewrite compare_MAX_VALUE.
  destruct (Z.ltb_spec LLONG_MAX (totalReceived r)); [lia|].
  unfold cmd_exists. rewrite Hk. unfold Long.toString.
  rewrite (lua_getReceiptValue_first now _ _ _ _ h ex) by auto.
  unfold Long.fromString. by rewrite string2ll_ll2string by by apply amount_in_range.
Qed.

Lemma cmd_hget_Some now (d : db) k f v :
  cmd_hget now d k f = Ok (Some v) ->
  exists h ex, lookupKey now d k = Some (Entry (RHash h) ex) /\ h !! f = Some v.
Proof.
  unfold cmd_hget. destruct (lookupKey now d k) as [[[s|h] ex]|]; try discriminate.
  intros [= Hf]. eauto.
Qed.

Lemma cmd_exists_false now (d : db) k :
  cmd_exists now d k = false <->
  d !! k = None \/ exists e, d !! k = Some e /\ alive now e = false.
Proof.
  unfold cmd_exists, lookupKey. destruct (d !! k) as [e|].
  - destruct (alive now e) eqn:Ha; split; try discriminate; eauto.
    intros [|(e' & [= <-] & ?)]; congruence.
  - split; auto.
Qed.

Lemma last_total_cons (w t : Z) (rest : list Z) :
  last_total w (t :: rest) = last_total t rest.
Proof.
  unfold last_total. revert w t.
  induction rest as [|a rest IH]; intros w t; [done|].
  change (List.last (t :: a :: rest) w) with (List.last (a :: rest) w).
  by rewrite !IH.
Qed.

(** Once the stream has a watermark [w], a run of non-decreasing totals
    above it returns deltas that telescope. *)
Lemma creditableAmounts_known n sid calls : forall (d : db) h ex w,
  d !! receiptKey n = Some (Entry (RHash h) ex) ->
  h !! sid = Some (ll2string w) -> 0 <= w <= LLONG_MAX ->
  Forall (fun c => unexpired (c_now c) ex = true /\ c_total c <= LLONG_MAX) calls ->
  non_decreasing_from w (c_total <$> calls) ->
  all_resolved (snd (creditableAmounts n sid calls d)) /\
  sum_deltas (snd (creditableAmounts n sid calls d))
    = last_total w (c_total <$> calls) - w.
Proof.
  induction calls as [|c rest IH]; intros d h ex w Hd Hf Hw Hall Hnd.
  - cbn. split; [constructor|]. unfold last_total. cbn. lia.
  - apply Forall_cons in Hall as [[Hlive Hmax] Hall].
    cbn [fmap list_fmap non_decreasing_from] in Hnd. destruct Hnd as [Hle Hnd].
    cbn [creditableAmounts].
    erewrite getReceiptValue_known; cycle 1.
    + apply lookupKey_Some. split; [exact Hd|exact Hlive].
    + exact Hf.
    + apply string2ll_ll2string, amount_in_range, Hw.
    + cbn. lia.
    + lia.
    + cbn [totalReceived nonce streamId]. cbv zeta.
      destruct (Z.ltb_spec (c_total c) w); [lia|]. cbn [fst snd].
      match goal with
      | |- context [creditableAmounts n sid rest ?d'] =>
          destruct (IH d' (<[sid := ll2string (c_total c)]> h) ex (c_total c))
            as [Hres Hsum];
          [apply lookup_insert_eq|apply lookup_insert_eq|lia|exact Hall|exact Hnd|]
      end.
      split.
      * constructor; [eauto|exact Hres].
      * cbn [sum_deltas]. rewrite Hsum.
        change (c_total <$> c :: rest) with (c_total c :: (c_total <$> rest)).
        rewrite last_total_cons. lia.
Qed.

(** ** The receipt watermark tracker *)

(** C1, as the code has it. For a registered record that stays unexpired
    through the run, and calls for one (nonce, streamId) whose cumulative
    totals are non-decreasing, start at or above the watermark [w0] the
    stream already has (0 when it has none) and do not exceed 2^63-1:
    every call returns a delta, and the deltas sum to the final
    cumulative total minus [w0]; for a stream without a watermark that is
    the final cumulative total. *)
Theorem deltas_sum_to_final_total_above_watermark
    n sid calls (d : db) h ex w0 :
  d !! receiptKey n = Some (Entry (RHash h) ex) ->
  stored_watermark h sid w0 ->
  Forall (fun c => unexpired (c_now c) ex = true) calls ->
  Forall (fun c => c_total c <= LLONG_MAX) calls ->
  non_decreasing_from w0 (c_total <$> calls) ->
  all_resolved (snd (creditableAmounts n sid calls d)) /\
  sum_deltas (snd (creditableAmounts n sid calls d))
    = last_total w0 (c_total <$> calls) - w0.
Proof.
  intros Hd Hw Hlive Hmax Hnd.
  assert (Hall : Forall (fun c => unexpired (c_now c) ex = true
                                  /\ c_total c <= LLONG_MAX) calls).
  { apply Forall_and. split; assumption. }
  unfold stored_watermark in Hw. destruct (h !! sid) as [prev|] eqn:Hf.
  - destruct Hw as [Hp Hw0].
    destruct (string2ll_Some _ _ Hp) as [<- Hr%in_range_bounds].
    apply (creditableAmounts_known n sid calls d h ex w0); auto.
    unfold LLONG_MIN, LLONG_MAX in *. lia.
  - subst w0. destruct calls as [|c rest].
    + cbn. split; [constructor|reflexivity].
    + apply Forall_cons in Hall as [[Hl Hm] Hall].
      cbn [fmap list_fmap non_decreasing_from] in Hnd. destruct Hnd as [H0 Hnd].
      cbn [creditableAmounts].
      erewrite getReceiptValue_first; cycle 1.
      * apply lookupKey_Some. split; [exact Hd|exact Hl].
      * exact Hf.
      * cbn. lia.
      * cbn [totalReceived nonce streamId fst snd].
        match goal with
        | |- context [creditableAmounts n sid rest ?d'] =>
            destruct (creditableAmounts_known n sid rest d'
                        (<[sid := ll2string (c_total c)]> h) ex (c_total c))
              as [Hres Hsum];
            [apply lookup_insert_eq|apply lookup_insert_eq|lia
            |exact Hall|exact Hnd|]
        end.
        split.
        -- constructor; [eauto|exact Hres].
        -- cbn [sum_deltas]. rewrite Hsum.
           change (c_total <$> c :: rest) with (c_total c :: (c_total <$> rest)).
           rewrite last_total_cons. lia.
Qed.

(** The three calls of the specification's scenario, on the freshly
    registered record: 10, 15 and 15 again. *)
Lemma deltas_sum_witness :
  all_resolved (snd (creditableAmounts "r1" "s1"
     [Scenario.call 1 "uuid-1" 10; Scenario.call 2 "uuid-2" 15;
      Scenario.call 3 "uuid-3" 15] Scenario.registered)) /\
  sum_deltas (snd (creditableAmounts "r1" "s1"
     [Scenario.call 1 "uuid-1" 10; Scenario.call 2 "uuid-2" 15;
      Scenario.call 3 "uuid-3" 15] Scenario.registered)) = 15 - 0.
Proof.
  apply (deltas_sum_to_final_total_above_watermark "r1" "s1"
           [Scenario.call 1 "uuid-1" 10; Scenario.call 2 "uuid-2" 15;
            Scenario.call 3 "uuid-3" 15]
           Scenario.registered {["dummy" := "0"]} (Some 300) 0).
  - vm_compute. reflexivity.
  - vm_compute. reflexivity.
  - repeat constructor.
  - repeat constructor; vm_compute; discriminate.
  - cbn. lia.
Defined.

(** C1 as stated fails on a registered, unexpired record whose stream was
    already credited up to 10: the single call with total 15 returns 5. *)
Lemma deltas_sum_after_earlier_credit :
  ~ (cmd_exists 2 Scenario.credited10 (receiptKey "r1") = true ->
     sum_deltas (snd (creditableAmounts "r1" "s1"
                        [Scenario.call 2 "uuid-2" 15] Scenario.credited10)) = 15).
Proof.
  intros H. specialize (H eq_refl). vm_compute in H. discriminate H.
Qed.

(** C3. When the store has no record for the receipt (the key was never
    written, or its expiry has passed), a call with a cumulative total of
    at most 2^63-1 returns 0 and leaves the store exactly as it was. *)
Theorem unknown_receipt_gives_zero now uuid r (d : db) :
  d !! receiptKey (nonce r) = None
  \/ (exists e, d !! receiptKey (nonce r) = Some e /\ alive now e = false) ->
  totalReceived r <= LLONG_MAX ->
  getReceiptValue now uuid r d = (d, Resolved 0).
Proof.
  intros Habs%cmd_exists_false Ht. unfold getReceiptValue, getReceiptValue_timed.
  rewrite compare_MAX_VALUE.
  destruct (Z.ltb_spec LLONG_MAX (totalReceived r)); [lia|].
  by rewrite Habs.
Qed.

(** A receipt that was never registered. *)
Lemma unknown_receipt_witness :
  getReceiptValue 1 "uuid-1" (Scenario.receipt "s1" 10) ∅ = (∅, Resolved 0).
Proof.
  apply (unknown_receipt_gives_zero 1 "uuid-1" (Scenario.receipt "s1" 10) ∅).
  - left. reflexivity.
  - vm_compute. discriminate.
Defined.

(** The record of the scenario, asked again once its 300 seconds are over. *)
Lemma expired_receipt_gives_zero :
  getReceiptValue 300 "uuid-4" (Scenario.receipt "s1" 20) Scenario.credited15
    = (Scenario.credited15, Resolved 0).
Proof. vm_compute. reflexivity. Qed.

(** ** The balance ledger *)

Ltac range := apply in_range_bounds; unfold LLONG_MIN, LLONG_MAX in *; lia.

Lemma valid_amount_passes (a : Z) :
  0 <= a <= LLONG_MAX ->
  Long.isNegative a = false /\ (Long.compare a Long.MAX_VALUE =? 1) = false.
Proof.
  intros Ha. rewrite compare_MAX_VALUE. unfold Long.isNegative.
  split; apply Z.ltb_ge; lia.
Qed.

Lemma lookupKey_unexpired now (d : db) k v ex :
  lookupKey now d k = Some (Entry v ex) -> unexpired now ex = true.
Proof. intros [_ Ha]%lookupKey_Some. exact Ha. Qed.

Lemma creditBalance_absent now id a (d : db) :
  0 <= a <= LLONG_MAX ->
  lookupKey now d (balanceKey id) = None ->
  creditBalance now id a d =
    (<[balanceKey id := Entry (RString (ll2string a)) None]> d, Resolved a).
Proof.
  intros Ha Hk. unfold creditBalance.
  destruct (valid_amount_passes a Ha) as [-> ->].
  unfold lua_creditBalance, bind, call_write, call_read, cmd_incrby, Long.toString.
  rewrite string2ll_ll2string by by apply amount_in_range.
  rewrite incrDecr_absent by done.
  rewrite cmd_get_insert_string by done.
  unfold Long.fromString.
  by rewrite string2ll_ll2string by by apply amount_in_range.
Qed.

Lemma creditBalance_present now id a s ex b (d : db) :
  0 <= a <= LLONG_MAX ->
  lookupKey now d (balanceKey id) = Some (Entry (RString s) ex) ->
  string2ll s = Some b ->
  creditBalance now id a d =
    if in_range (b + a)
    then (<[balanceKey id := Entry (RString (ll2string (b + a))) ex]> d,
          Resolved (b + a))
    else (d, Rejected BalanceOverflow).
Proof.
  intros Ha Hk Hs. unfold creditBalance.
  destruct (valid_amount_passes a Ha) as [-> ->].
  unfold lua_creditBalance, bind, call_write, call_read, cmd_incrby, Long.toString.
  rewrite string2ll_ll2string by by apply amount_in_range.
  rewrite (incrDecr_present now d _ s ex b) by (auto using amount_in_range).
  destruct (in_range (b + a)) eqn:Hr; [|reflexivity].
  rewrite cmd_get_insert_string by (eapply lookupKey_unexpired; eauto).
  unfold Long.fromString. by rewrite string2ll_ll2string.
Qed.

Lemma spendBalance_absent now id a (d : db) :
  0 <= a <= LLONG_MAX ->
  lookupKey now d (balanceKey id) = None ->
  spendBalance now id a d = (d, Rejected BalanceNotFound).
Proof.
  intros Ha Hk. unfold spendBalance.
  destruct (valid_amount_passes a Ha) as [-> ->].
  unfold lua_spendBalance, bind, call_read, cmd_get. by rewrite Hk.
Qed.

Lemma spendBalance_present now id a s ex b (d : db) :
  0 <= a <= LLONG_MAX ->
  lookupKey now d (balanceKey id) = Some (Entry (RString s) ex) ->
  string2ll s = Some b -> LLONG_MIN <= b - a ->
  spendBalance now id a d =
    if b - a <? 0 then (d, Rejected InsufficientBalance)
    else (<[balanceKey id := Entry (RString (ll2string (b - a))) ex]> d,
          Resolved (b - a)).
Proof.
  intros Ha Hk Hs Hb. unfold spendBalance.
  destruct (valid_amount_passes a Ha) as [-> ->].
  destruct (string2ll_Some _ _ Hs) as [Hsb Hr%in_range_bounds].
  pose proof (lookupKey_unexpired _ _ _ _ _ Hk) as Hlive.
  assert (Hra : in_range a = true) by range.
  assert (Hrn : in_range (- a) = true) by range.
  assert (Hrd : in_range (b + - a) = true) by range.
  unfold lua_spendBalance, bind, call_read, call_write, ret, error_reply.
  unfold cmd_get at 1. rewrite Hk.
  unfold cmd_decrby, Long.toString. rewrite string2ll_ll2string by done.
  destruct (Z.eqb_spec a LLONG_MIN) as [->|_];
    [unfold LLONG_MIN, LLONG_MAX in *; lia|].
  rewrite (incrDecr_present now d _ s ex b) by auto.
  rewrite Hrd. rewrite cmd_get_insert_string by done.
  rewrite starts_with_minus_ll2string.
  replace (b + - a) with (b - a) by lia.
  destruct (Z.ltb_spec (b - a) 0).
  - unfold cmd_incrby. rewrite string2ll_ll2string by done.
    erewrite incrDecr_present;
      [|rewrite lookupKey_insert_eq; unfold alive; cbn [e_expire];
        rewrite Hlive; reflexivity
       |apply string2ll_ll2string; range|done].
    replace (b - a + a) with b by lia.
    replace (in_range b) with true by (symmetry; range).
    rewrite insert_insert_eq, Hsb.
    apply lookupKey_Some in Hk as [Hraw _].
    by rewrite (insert_id _ _ _ Hraw).
  - unfold Long.fromString. rewrite string2ll_ll2string by range. reflexivity.
Qed.

(** C5. A spend of an amount between 0 and 2^63-1: without a balance
    record it fails with BalanceNotFound and the store is unchanged (no
    record is created); on a record holding balance [b] (any integer the
    store can decrement by the amount, so every balance [b >= 0]), it
    fails with InsufficientBalance and an unchanged store when
    [b - amount] would be negative, and otherwise stores and returns
    [b - amount]. *)
Theorem spend_outcomes now id amount (d : db) :
  0 <= amount <= LLONG_MAX ->
  (cmd_get now d (balanceKey id) = Ok None ->
   spendBalance now id amount d = (d, Rejected BalanceNotFound)) /\
  (forall s ex b,
     lookupKey now d (balanceKey id) = Some (Entry (RString s) ex) ->
     string2ll s = Some b -> LLONG_MIN <= b - amount ->
     (b - amount < 0 ->
      spendBalance now id amount d = (d, Rejected InsufficientBalance)) /\
     (0 <= b - amount ->
      spendBalance now id amount d =
        (<[balanceKey id := Entry (RString (ll2string (b - amount))) ex]> d,
         Resolved (b - amount)))).
Proof.
  intros Ha. split.
  - intros Hg. apply spendBalance_absent; [done|].
    unfold cmd_get in Hg.
    by destruct (lookupKey now d (balanceKey id)) as [[[?|?] ?]|].
  - intros s ex b Hk Hs Hb.
    rewrite (spendBalance_present now id amount s ex b) by done.
    split; intros H; destruct (Z.ltb_spec (b - amount) 0); (reflexivity || lia).
Qed.

(** Spending 20 from a balance of 15. *)
Lemma spend_outcomes_witness :
  spendBalance 3 "acct1" 20 {[ balanceKey "acct1" := Entry (RString "15") None ]}
    = ({[ balanceKey "acct1" := Entry (RString "15") None ]},
       Rejected InsufficientBalance).
Proof.
  refine (proj1 (proj2 (spend_outcomes 3 "acct1" 20
            {[ balanceKey "acct1" := Entry (RString "15") None ]} _)
            "15" None 15 _ _ _) _).
  - vm_compute. split; discriminate.
  - vm_compute. reflexivity.
  - vm_compute. reflexivity.
  - vm_compute. discriminate.
  - lia.
Defined.

Lemma valid_balance_lookupKey now (d : db) id b :
  valid_balance d id b ->
  (lookupKey now d (balanceKey id) = None /\ b = 0) \/
  (lookupKey now d (balanceKey id) = Some (Entry (RString (ll2string b)) None)
   /\ 0 <= b <= LLONG_MAX).
Proof.
  intros [[Hraw ->]|[Hraw Hb]].
  - left. split; [by apply lookupKey_raw_None|done].
  - right. split; [|done]. by apply lookupKey_Some.
Qed.

Lemma balanceValue_valid now (d : db) id b :
  valid_balance d id b -> balanceValue now d id = Some b /\ 0 <= b <= LLONG_MAX.
Proof.
  intros Hv. unfold balanceValue, cmd_get.
  destruct (valid_balance_lookupKey now d id b Hv) as [[-> ->]|[-> Hb]].
  - split; [done|]. unfold LLONG_MAX. lia.
  - split; [|done]. by apply string2ll_ll2string, amount_in_range.
Qed.

Lemma invalid_amount_credit now id a (d : db) :
  ~ 0 <= a <= LLONG_MAX -> exists e, creditBalance now id a d = (d, Rejected e).
Proof.
  intros Ha. unfold creditBalance. rewrite compare_MAX_VALUE. unfold Long.isNegative.
  destruct (Z.ltb_spec a 0); [eauto|].
  destruct (Z.ltb_spec LLONG_MAX a); [eauto|lia].
Qed.

Lemma invalid_amount_spend now id a (d : db) :
  ~ 0 <= a <= LLONG_MAX -> exists e, spendBalance now id a d = (d, Rejected e).
Proof.
  intros Ha. unfold spendBalance. rewrite compare_MAX_VALUE. unfold Long.isNegative.
  destruct (Z.ltb_spec a 0); [eauto|].
  destruct (Z.ltb_spec LLONG_MAX a); [eauto|lia].
Qed.

(** One operation keeps the record a valid balance and moves it by what
    the operation added to the credited and spent totals. *)
Lemma ledger_step_valid id (r : ledger_run) (c : Z * ledger_op) b :
  valid_balance (l_db r) id b ->
  valid_balance (l_db (ledger_step id r c)) id
    (b + (l_credited (ledger_step id r c) - l_credited r)
       - (l_spent (ledger_step id r c) - l_spent r)).
Proof.
  intros Hv. destruct c as [now [a|a]]; unfold ledger_step, apply_op.
  - destruct (decide (0 <= a <= LLONG_MAX)) as [Ha|Ha].
    + destruct (valid_balance_lookupKey now _ id b Hv) as [[Hk ->]|[Hk Hb]].
      * rewrite creditBalance_absent by done. cbn [l_db l_credited l_spent].
        right. split; [|lia]. replace (0 + _ - _) with a by lia.
        apply lookup_insert_eq.
      * rewrite (creditBalance_present now id a (ll2string b) None b)
          by auto using string2ll_ll2string, amount_in_range.
        destruct (in_range (b + a)) eqn:Hr; cbn [l_db l_credited l_spent].
        -- apply in_range_bounds in Hr. right.
           replace (b + _ - _) with (b + a) by lia.
           split; [apply lookup_insert_eq|lia].
        -- replace (b + _ - _) with b by lia. exact Hv.
    + destruct (invalid_amount_credit now id a (l_db r) Ha) as [e ->].
      cbn [l_db l_credited l_spent]. replace (b + _ - _) with b by lia. exact Hv.
  - destruct (decide (0 <= a <= LLONG_MAX)) as [Ha|Ha].
    + destruct (valid_balance_lookupKey now _ id b Hv) as [[Hk ->]|[Hk Hb]].
      * rewrite spendBalance_absent by done. cbn [l_db l_credited l_spent].
        replace (0 + _ - _) with 0 by lia. exact Hv.
      * rewrite (spendBalance_present now id a (ll2string b) None b)
          by (auto using string2ll_ll2string, amount_in_range;
              unfold LLONG_MIN, LLONG_MAX in *; lia).
        destruct (Z.ltb_spec (b - a) 0); cbn [l_db l_credited l_spent].
        -- replace (b + _ - _) with b by lia. exact Hv.
        -- right. replace (b + _ - _) with (b - a) by lia.
           split; [apply lookup_insert_eq|lia].
    + destruct (invalid_amount_spend now id a (l_db r) Ha) as [e ->].
      cbn [l_db l_credited l_spent]. replace (b + _ - _) with b by lia. exact Hv.
Qed.

Lemma fold_ledger_valid id ops : forall (r : ledger_run) b,
  valid_balance (l_db r) id b ->
  valid_balance (l_db (fold_left (ledger_step id) ops r)) id
    (b + (l_credited (fold_left (ledger_step id) ops r) - l_credited r)
       - (l_spent (fold_left (ledger_step id) ops r) - l_spent r)).
Proof.
  induction ops as [|c rest IH]; intros r b Hv.
  - cbn. replace (b + _ - _) with b by lia. exact Hv.
  - cbn [fold_left].
    pose proof (IH _ _ (ledger_step_valid id r c b Hv)) as H.
    match type of H with
    | valid_balance _ _ ?x =>
        match goal with
        | |- valid_balance _ _ ?y => replace y with x by lia
        end
    end.
    exact H.
Qed.

(** C6. Starting from a valid balance record with value [b0] (0 when
    there is no record), after any sequence of credit and spend calls on
    that identifier the stored value is [b0] plus the amounts credited by
    the calls that succeeded minus the amounts spent by the calls that
    succeeded, and after every operation of the sequence the stored value
    lies between 0 and 2^63-1. *)
Theorem ledger_accounting id ops (d : db) b0 now :
  valid_balance d id b0 ->
  balanceValue now (l_db (run_ledger id ops d)) id
    = Some (b0 + l_credited (run_ledger id ops d) - l_spent (run_ledger id ops d))
  /\ (forall done, done `prefix_of` ops ->
        exists v, balanceValue now (l_db (run_ledger id done d)) id = Some v
                  /\ 0 <= v <= LLONG_MAX).
Proof.
  intros Hv. split.
  - pose proof (fold_ledger_valid id ops
                  {| l_db := d; l_credited := 0; l_spent := 0 |} b0 Hv) as H.
    apply (balanceValue_valid now) in H as [H _]. unfold run_ledger. rewrite H.
    cbn [l_credited l_spent]. f_equal. lia.
  - intros done _.
    pose proof (fold_ledger_valid id done
                  {| l_db := d; l_credited := 0; l_spent := 0 |} b0 Hv) as H.
    apply (balanceValue_valid now) in H as [H Hb]. eauto.
Qed.

(** The ledger example on an empty store: 10 + 5 credited, the spend of
    20 refused, 15 spent. *)
Lemma ledger_accounting_witness :
  balanceValue 5 (l_db (run_ledger "acct1" Scenario.ledger_ops ∅)) "acct1"
    = Some (0 + l_credited (run_ledger "acct1" Scenario.ledger_ops ∅)
              - l_spent (run_ledger "acct1" Scenario.ledger_ops ∅))
  /\ (forall done, done `prefix_of` Scenario.ledger_ops ->
        exists v, balanceValue 5 (l_db (run_ledger "acct1" done ∅)) "acct1" = Some v
                  /\ 0 <= v <= LLONG_MAX).
Proof.
  apply (ledger_accounting "acct1" Scenario.ledger_ops ∅ 0 5).
  left. split; reflexivity.
Defined.

Example ledger_example_totals :
  l_credited (run_ledger "acct1" Scenario.ledger_ops ∅) = 15 /\
  l_spent (run_ledger "acct1" Scenario.ledger_ops ∅) = 15 /\
  balanceValue 5 (l_db (run_ledger "acct1" Scenario.ledger_ops ∅)) "acct1" = Some 0.
Proof. vm_compute. auto. Qed.

(** X14. On a store whose balance key is absent or holds a signed 64-bit
    integer [b], a credit of a valid amount is refused with
    BalanceOverflow exactly when [b + amount] exceeds 2^63-1, and then the
    store is unchanged. *)
Lemma credit_overflow_on_integer_balance now id amount (d : db) b :
  0 <= amount <= LLONG_MAX ->
  balanceValue now d id = Some b ->
  (snd (creditBalance now id amount d) = Rejected BalanceOverflow
   <-> LLONG_MAX < b + amount) /\
  (LLONG_MAX < b + amount -> fst (creditBalance now id amount d) = d).
Proof.
  intros Ha Hb. unfold balanceValue, cmd_get in Hb.
  destruct (lookupKey now d (balanceKey id)) as [[[s|h] ex]|] eqn:Hk;
    [|discriminate|].
  - rewrite (creditBalance_present now id amount s ex b) by done.
    destruct (string2ll_Some _ _ Hb) as [_ Hr%in_range_bounds].
    destruct (in_range (b + amount)) eqn:Hs.
    + apply in_range_bounds in Hs. cbn [fst snd].
      split; [split; [discriminate|lia]|lia].
    + cbn [fst snd]. split; [|done]. split; [|done]. intros _.
      destruct (Z.ltb_spec LLONG_MAX (b + amount)); [done|].
      assert (in_range (b + amount) = true) by range. congruence.
  - injection Hb as <-. rewrite creditBalance_absent by done. cbn [fst snd].
    split; [split; [discriminate|lia]|lia].
Qed.

(** C4 at a balance key that holds no number: the script fails because
    the value is not an integer, nothing would overflow, and the service
    reports the failure with the message of BalanceOverflow. *)
Theorem credit_reports_any_store_error_as_overflow :
  lua_creditBalance 1 (balanceKey "acct1") (Long.toString 1) Scenario.garbled
    = (Scenario.garbled, Error ERR_not_an_integer) /\
  balanceValue 1 Scenario.garbled "acct1" = None /\
  creditBalance 1 "acct1" 1 Scenario.garbled
    = (Scenario.garbled, Rejected BalanceOverflow).
Proof. vm_compute. auto. Qed.

(** The other method of the ledger hands the same store error on as it is. *)
Example spend_reports_store_error :
  spendBalance 1 "acct1" 1 Scenario.garbled
    = (Scenario.garbled, Rejected (ReplyError ERR_not_an_integer)).
Proof. vm_compute. reflexivity. Qed.

(** ** The two store calls of [getReceiptValue] *)

Lemma unexpired_earlier now1 now2 ex :
  now1 <= now2 -> unexpired now2 ex = true -> unexpired now1 ex = true.
Proof.
  intros Hle. destruct ex as [t|]; [|done]. cbn.
  intros H%Z.ltb_lt. apply Z.ltb_lt. lia.
Qed.

(** A key that is there when the script runs was there at EXISTS. *)
Lemma cmd_exists_earlier now1 now2 (d : db) k e :
  now1 <= now2 -> lookupKey now2 d k = Some e -> cmd_exists now1 d k = true.
Proof.
  intros Hle [Hraw Ha]%lookupKey_Some. unfold cmd_exists, lookupKey.
  rewrite Hraw. unfold alive in *.
  by rewrite (unexpired_earlier now1 now2 _ Hle Ha).
Qed.

Lemma getReceiptValue_timed_absent now_exists now_script uuid r (d : db) :
  cmd_exists now_exists d (receiptKey (nonce r)) = false ->
  totalReceived r <= LLONG_MAX ->
  getReceiptValue_timed now_exists now_script uuid r d = (d, Resolved 0).
Proof.
  intros Habs Ht. unfold getReceiptValue_timed. rewrite compare_MAX_VALUE.
  destruct (Z.ltb_spec LLONG_MAX (totalReceived r)); [lia|]. by rewrite Habs.
Qed.

Lemma getReceiptValue_timed_known now_exists now_script uuid r h ex prev w (d : db) :
  cmd_exists now_exists d (receiptKey (nonce r)) = true ->
  lookupKey now_script d (receiptKey (nonce r)) = Some (Entry (RHash h) ex) ->
  h !! streamId r = Some prev -> string2ll prev = Some w ->
  0 <= totalReceived r <= LLONG_MAX -> 0 <= w ->
  getReceiptValue_timed now_exists now_script uuid r d =
    let t := totalReceived r in
    let d2 := <[tempKey uuid :=
                  Entry (RString (ll2string (t - w))) (Some (now_script + 1))]> d in
    if t <? w then (d2, Resolved 0)
    else (<[receiptKey (nonce r) :=
              Entry (RHash (<[streamId r := ll2string t]> h)) ex]> d2,
          Resolved (t - w)).
Proof.
  intros Hex Hk Hf Hw Ht Hw0. unfold getReceiptValue_timed.
  rewrite compare_MAX_VALUE.
  destruct (Z.ltb_spec LLONG_MAX (totalReceived r)); [lia|].
  rewrite Hex. unfold Long.toString.
  rewrite (lua_getReceiptValue_known now_script _ _ _ _ h ex prev w)
    by auto using tempKey_receiptKey.
  cbv zeta. destruct (Z.ltb_spec (totalReceived r) w).
  - reflexivity.
  - unfold Long.fromString. rewrite string2ll_ll2string; [reflexivity|].
    destruct (string2ll_Some _ _ Hw) as [_ Hwr%in_range_bounds].
    apply in_range_bounds. unfold LLONG_MIN, LLONG_MAX in *. lia.
Qed.

Lemma getReceiptValue_timed_first now_exists now_script uuid r h ex (d : db) :
  cmd_exists now_exists d (receiptKey (nonce r)) = true ->
  lookupKey now_script d (receiptKey (nonce r)) = Some (Entry (RHash h) ex) ->
  h !! streamId r = None ->
  0 <= totalReceived r <= LLONG_MAX ->
  getReceiptValue_timed now_exists now_script uuid r d =
    (<[receiptKey (nonce r) :=
         Entry (RHash (<[streamId r := ll2string (totalReceived r)]> h)) ex]> d,
     Resolved (totalReceived r)).
Proof.
  intros Hex Hk Hf Ht. unfold getReceiptValue_timed.
  rewrite compare_MAX_VALUE.
  destruct (Z.ltb_spec LLONG_MAX (totalReceived r)); [lia|].
  rewrite Hex. unfold Long.toString.
  rewrite (lua_getReceiptValue_first now_script _ _ _ _ h ex) by auto.
  unfold Long.fromString. by rewrite string2ll_ll2string by by apply amount_in_range.
Qed.

(** X24. When EXISTS finds no record of the receipt (the key was never
    written, or its expiry has passed by then), a call with a cumulative
    total of at most 2^63-1 returns 0 and leaves the store exactly as it
    was, whenever the script would have run: the method returns at the
    answer of EXISTS. *)
Theorem unknown_receipt_returns_at_exists now_exists now_script uuid r (d : db) :
  d !! receiptKey (nonce r) = None
  \/ (exists e, d !! receiptKey (nonce r) = Some e /\ alive now_exists e = false) ->
  totalReceived r <= LLONG_MAX ->
  getReceiptValue_timed now_exists now_script uuid r d = (d, Resolved 0).
Proof.
  intros Habs%cmd_exists_false Ht. by apply getReceiptValue_timed_absent.
Qed.

(** The record of the scenario, which expires at 300: EXISTS at 300. *)
Lemma unknown_receipt_at_exists_witness :
  getReceiptValue_timed 300 301 "uuid-8" (Scenario.receipt "s1" 40)
    Scenario.credited15
  = (Scenario.credited15, Resolved 0).
Proof.
  apply (unknown_receipt_returns_at_exists 300 301 "uuid-8"
           (Scenario.receipt "s1" 40) Scenario.credited15).
  - right. eexists. split; [vm_compute; reflexivity|reflexivity].
  - vm_compute. discriminate.
Defined.

(** C2 where the record expires between the two store calls of one
    [getReceiptValue]: the watermark 15 is stored when the call is made
    and EXISTS is answered (time 299); the script runs at the expiry
    (time 300), finds no record, and the receipt with the lower total 5
    is credited 5; the record with watermark 15 is replaced by one that
    holds 5 and never expires. *)
Theorem lower_total_credited_across_expiry :
  cmd_hget 299 Scenario.credited15 (receiptKey "r1") "s1" = Ok (Some "15") /\
  string2ll "15" = Some 15 /\
  getReceiptValue_timed 299 300 "uuid-3" (Scenario.receipt "s1" 5)
    Scenario.credited15
  = (<[receiptKey "r1" := Entry (RHash {["s1" := "5"]}) None]> Scenario.credited15,
     Resolved 5).
Proof. vm_compute. auto. Qed.

(** X22. A call whose cumulative total is strictly below the watermark
    that is stored for its (nonce, streamId) when the script runs (the
    record being unexpired then) returns delta 0, whenever EXISTS was
    answered, and leaves the stored watermark, indeed the whole receipt
    record, as it was. *)
Theorem lower_total_gives_zero now_exists now_script uuid r prev w (d : db) :
  cmd_hget now_script d (receiptKey (nonce r)) (streamId r) = Ok (Some prev) ->
  string2ll prev = Some w ->
  0 <= totalReceived r < w ->
  snd (getReceiptValue_timed now_exists now_script uuid r d) = Resolved 0 /\
  cmd_hget now_script (fst (getReceiptValue_timed now_exists now_script uuid r d))
    (receiptKey (nonce r)) (streamId r) = Ok (Some prev) /\
  fst (getReceiptValue_timed now_exists now_script uuid r d) !! receiptKey (nonce r)
    = d !! receiptKey (nonce r).
Proof.
  intros Hg Hp Ht.
  destruct (cmd_hget_Some _ _ _ _ _ Hg) as (h & ex & Hk & Hf).
  destruct (string2ll_Some _ _ Hp) as [_ Hr%in_range_bounds].
  destruct (cmd_exists now_exists d (receiptKey (nonce r))) eqn:Hex.
  - rewrite (getReceiptValue_timed_known now_exists now_script uuid r h ex prev w)
      by (auto; lia).
    cbv zeta. destruct (Z.ltb_spec (totalReceived r) w); [|lia].
    cbn [fst snd]. split; [reflexivity|]. split.
    + unfold cmd_hget.
      rewrite lookupKey_insert_ne by apply tempKey_receiptKey.
      by rewrite Hk, Hf.
    + apply lookup_insert_ne, tempKey_receiptKey.
  - rewrite getReceiptValue_timed_absent by (done || lia). by cbn [fst snd].
Qed.

(** The third call of the scenario: total 5 against watermark 15. *)
Lemma lower_total_witness :
  snd (getReceiptValue_timed 3 4 "uuid-3" (Scenario.receipt "s1" 5)
         Scenario.credited15) = Resolved 0 /\
  cmd_hget 4 (fst (getReceiptValue_timed 3 4 "uuid-3" (Scenario.receipt "s1" 5)
                     Scenario.credited15))
    (receiptKey "r1") "s1" = Ok (Some "15") /\
  fst (getReceiptValue_timed 3 4 "uuid-3" (Scenario.receipt "s1" 5)
         Scenario.credited15)
    !! receiptKey "r1" = Scenario.credited15 !! receiptKey "r1".
Proof.
  apply (lower_total_gives_zero 3 4 "uuid-3" (Scenario.receipt "s1" 5) "15" 15
           Scenario.credited15).
  - vm_compute. reflexivity.
  - vm_compute. reflexivity.
  - cbn. lia.
Defined.

(** ** Registration of a receipt *)

Lemma cmd_expire_sets now (d : db) k v ex ttl :
  0 < ttl -> expire_accepts now ttl = true ->
  lookupKey now d k = Some (Entry v ex) ->
  cmd_expire now d k (Integral ttl) = Ok (<[k := Entry v (Some (now + ttl))]> d).
Proof.
  intros Httl Hacc Hk. unfold cmd_expire. rewrite Hacc.
  assert (Hr : in_range ttl = true).
  { unfold expire_accepts in Hacc. by destruct (in_range ttl). }
  rewrite Hr. cbn [negb]. rewrite Hk.
  by destruct (Z.leb_spec ttl 0); [lia|].
Qed.

Lemma setReceiptTTL_timed_absent config now_hset now_expire n ttl (d : db) :
  receiptTTLSeconds config = Integral ttl ->
  0 < ttl -> expire_accepts now_expire ttl = true ->
  lookupKey now_hset d (receiptKey n) = None ->
  setReceiptTTL_timed config now_hset now_expire n d =
    (<[receiptKey n := Entry (RHash {["dummy" := "0"]}) (Some (now_expire + ttl))]> d,
     Resolved tt).
Proof.
  intros Hcfg Httl Hacc Hk. unfold setReceiptTTL_timed, cmd_hset.
  rewrite Hk, Hcfg.
  rewrite (cmd_expire_sets now_expire _ _ (RHash {["dummy" := "0"]}) None ttl)
    by (done || by rewrite lookupKey_insert_eq).
  by rewrite insert_insert_eq.
Qed.

Lemma setReceiptTTL_timed_present config now_hset now_expire n ttl h ex (d : db) :
  receiptTTLSeconds config = Integral ttl ->
  0 < ttl -> expire_accepts now_expire ttl = true ->
  lookupKey now_hset d (receiptKey n) = Some (Entry (RHash h) ex) ->
  unexpired now_expire ex = true ->
  setReceiptTTL_timed config now_hset now_expire n d =
    (<[receiptKey n := Entry (RHash (<["dummy" := "0"]> h)) (Some (now_expire + ttl))]> d,
     Resolved tt).
Proof.
  intros Hcfg Httl Hacc Hk Hex. unfold setReceiptTTL_timed, cmd_hset.
  rewrite Hk, Hcfg.
  rewrite (cmd_expire_sets now_expire _ _ (RHash (<["dummy" := "0"]> h)) ex ttl);
    [by rewrite insert_insert_eq|done|done|].
  rewrite lookupKey_insert_eq. unfold alive. cbn [e_expire]. by rewrite Hex.
Qed.

(** C7, as the code has it. [setReceiptTTL] takes the receipt identifier
    only, and reaches the store twice, with HSET and then with EXPIRE.
    Let the configured [receiptTTLSeconds] be a positive integer that
    EXPIRE accepts, let the receipt key not hold a plain string, and let
    a record that is there at HSET be unexpired still at EXPIRE. Then
    the call succeeds, a record with the placeholder field exists from
    then until its expiry, and the expiry is exactly the configured
    number of seconds after the time of EXPIRE; a second call whose two
    store calls come before that expiry leaves the same record and the
    same store, the expiry alone being set anew. *)
Theorem registration_sets_configured_expiry
    config now_hset now_expire n ttl (d : db) :
  receiptTTLSeconds config = Integral ttl ->
  0 < ttl ->
  expire_accepts now_expire ttl = true ->
  (forall s ex,
     lookupKey now_hset d (receiptKey n) <> Some (Entry (RString s) ex)) ->
  (forall v ex,
     lookupKey now_hset d (receiptKey n) = Some (Entry v ex) ->
     unexpired now_expire ex = true) ->
  exists h,
    setReceiptTTL_timed config now_hset now_expire n d
      = (<[receiptKey n := Entry (RHash h) (Some (now_expire + ttl))]> d,
         Resolved tt)
    /\ h !! "dummy" = Some "0"
    /\ (forall later, later < now_expire + ttl ->
          cmd_exists later
            (fst (setReceiptTTL_timed config now_hset now_expire n d))
            (receiptKey n) = true)
    /\ forall now_hset' now_expire',
         now_hset' < now_expire + ttl -> now_expire' < now_expire + ttl ->
         expire_accepts now_expire' ttl = true ->
         setReceiptTTL_timed config now_hset' now_expire' n
           (fst (setReceiptTTL_timed config now_hset now_expire n d))
         = (<[receiptKey n := Entry (RHash h) (Some (now_expire' + ttl))]> d,
            Resolved tt).
Proof.
  intros Hcfg Httl Hacc Hty Hlive.
  assert (Hex : exists h,
    setReceiptTTL_timed config now_hset now_expire n d
      = (<[receiptKey n := Entry (RHash h) (Some (now_expire + ttl))]> d,
         Resolved tt)
    /\ h !! "dummy" = Some "0").
  { destruct (lookupKey now_hset d (receiptKey n)) as [[[s|h] ex]|] eqn:Hk.
    - by destruct (Hty s ex).
    - exists (<["dummy" := "0"]> h). split; [|apply lookup_insert_eq].
      apply setReceiptTTL_timed_present with ex; try done.
      by apply (Hlive (RHash h)).
    - exists {["dummy" := "0"]}. split; [|apply lookup_singleton_eq].
      by apply setReceiptTTL_timed_absent. }
  destruct Hex as (h & Hset & Hdummy). exists h. rewrite Hset. cbn [fst].
  split; [reflexivity|]. split; [exact Hdummy|]. split.
  - intros later Hlater. unfold cmd_exists. rewrite lookupKey_insert_eq.
    unfold alive. cbn [e_expire unexpired].
    by destruct (Z.ltb_spec later (now_expire + ttl)); [|lia].
  - intros now_hset' now_expire' Hh He Hacc'.
    rewrite (setReceiptTTL_timed_present config now_hset' now_expire' n ttl h
               (Some (now_expire + ttl))); try done.
    + by rewrite insert_insert_eq, (insert_id h "dummy" "0").
    + rewrite lookupKey_insert_eq. unfold alive. cbn [e_expire unexpired].
      by destruct (Z.ltb_spec now_hset' (now_expire + ttl)); [|lia].
    + cbn [unexpired].
      by destruct (Z.ltb_spec now_expire' (now_expire + ttl)); [|lia].
Qed.

(** Registration of "r1" on the empty store, under the default
    configuration of 300 seconds: HSET at time 0, EXPIRE at time 1. *)
Lemma registration_witness :
  exists h,
    setReceiptTTL_timed Scenario.config 0 1 "r1" ∅
      = (<[receiptKey "r1" := Entry (RHash h) (Some (1 + 300))]> ∅, Resolved tt)
    /\ h !! "dummy" = Some "0"
    /\ (forall later, later < 1 + 300 ->
          cmd_exists later (fst (setReceiptTTL_timed Scenario.config 0 1 "r1" ∅))
            (receiptKey "r1") = true)
    /\ forall now_hset' now_expire',
         now_hset' < 1 + 300 -> now_expire' < 1 + 300 ->
         expire_accepts now_expire' 300 = true ->
         setReceiptTTL_timed Scenario.config now_hset' now_expire' "r1"
           (fst (setReceiptTTL_timed Scenario.config 0 1 "r1" ∅))
         = (<[receiptKey "r1" := Entry (RHash h) (Some (now_expire' + 300))]> ∅,
            Resolved tt).
Proof.
  apply (registration_sets_configured_expiry Scenario.config 0 1 "r1" 300 ∅).
  - reflexivity.
  - lia.
  - vm_compute. reflexivity.
  - intros s ex. vm_compute. discriminate.
  - intros v ex. vm_compute. discriminate.
Defined.

(** C7 as stated fails: a caller that wants a validity of 60 seconds
    registers "r1" at time 0 under the default configuration; the expiry
    of the record is not 60 seconds after the call (it is the configured
    300 seconds after it). *)
Lemma registration_ignores_requested_ttl :
  let ttlSeconds := 60 in
  ~ (e_expire <$> (fst (setReceiptTTL Scenario.config 0 "r1" ∅) !! receiptKey "r1")
     = Some (Some (0 + ttlSeconds))).
Proof.
  intros ttlSeconds H. vm_compute in H. discriminate H.
Qed.

(** A second registration keeps every field other than the placeholder,
    when the record is unexpired still at EXPIRE. *)
Lemma setReceiptTTL_keeps_other_fields
    config now_hset now_expire n ttl h ex f (d : db) :
  receiptTTLSeconds config = Integral ttl ->
  0 < ttl -> expire_accepts now_expire ttl = true ->
  lookupKey now_hset d (receiptKey n) = Some (Entry (RHash h) ex) ->
  unexpired now_expire ex = true ->
  f <> "dummy" ->
  forall later, later < now_expire + ttl ->
    cmd_hget later (fst (setReceiptTTL_timed config now_hset now_expire n d))
      (receiptKey n) f
    = Ok (h !! f).
Proof.
  intros Hcfg Httl Hacc Hk Hex Hf later Hlater.
  rewrite (setReceiptTTL_timed_present config now_hset now_expire n ttl h ex)
    by done.
  cbn [fst]. unfold cmd_hget. rewrite lookupKey_insert_eq.
  unfold alive. cbn [e_expire unexpired].
  destruct (Z.ltb_spec later (now_expire + ttl)); [|lia].
  by rewrite lookup_insert_ne.
Qed.

(** C9 at a stream whose identifier is the name of the placeholder field:
    the stream's watermark 10 is overwritten with 0 by the second
    registration, and the receipt with total 10 is credited once more. *)
Theorem registration_resets_stream_named_dummy :
  cmd_hget 1 Scenario.dummy_credited (receiptKey "r1") "dummy" = Ok (Some "10") /\
  cmd_hget 2 Scenario.dummy_reregistered (receiptKey "r1") "dummy" = Ok (Some "0") /\
  snd (getReceiptValue 1 "uuid-1" (Scenario.receipt "dummy" 10) Scenario.registered)
    = Resolved 10 /\
  snd (getReceiptValue 3 "uuid-2" (Scenario.receipt "dummy" 10)
         Scenario.dummy_reregistered) = Resolved 10.
Proof. vm_compute. auto. Qed.

(** ** The scratch key of the receipt script *)

(** C10, as the code has it. A call with a total of at most 2^63-1 for
    a stream whose watermark [w] is stored when the script runs (EXISTS
    having been answered before, the record is unexpired at both) leaves
    a scratch key [ilpTemp:<uuid>] that holds the cumulative total minus
    [w] (the script writes the total and then decrements it), expiring
    one second after the script ran; no key other than the scratch key
    and the receipt record is modified, and within the record the expiry
    and every field other than the stream's own are as before. *)
Theorem scratch_key_and_frame now_exists now_script uuid r prev w (d : db) :
  now_exists <= now_script ->
  cmd_hget now_script d (receiptKey (nonce r)) (streamId r) = Ok (Some prev) ->
  string2ll prev = Some w -> 0 <= w ->
  0 <= totalReceived r <= LLONG_MAX ->
  fst (getReceiptValue_timed now_exists now_script uuid r d) !! tempKey uuid
    = Some (Entry (RString (ll2string (totalReceived r - w)))
              (Some (now_script + 1)))
  /\ (forall k, k <> tempKey uuid -> k <> receiptKey (nonce r) ->
        fst (getReceiptValue_timed now_exists now_script uuid r d) !! k = d !! k)
  /\ (exists h h' ex,
        d !! receiptKey (nonce r) = Some (Entry (RHash h) ex)
        /\ fst (getReceiptValue_timed now_exists now_script uuid r d)
             !! receiptKey (nonce r)
           = Some (Entry (RHash h') ex)
        /\ forall f, f <> streamId r -> h' !! f = h !! f).
Proof.
  intros Hle Hg Hp Hw Ht.
  destruct (cmd_hget_Some _ _ _ _ _ Hg) as (h & ex & Hk & Hf).
  pose proof (tempKey_receiptKey uuid (nonce r)) as Hne.
  apply lookupKey_Some in Hk as Hraw. destruct Hraw as [Hraw _].
  rewrite (getReceiptValue_timed_known now_exists now_script uuid r h ex prev w)
    by eauto using cmd_exists_earlier.
  cbv zeta. destruct (Z.ltb_spec (totalReceived r) w); cbn [fst].
  - split; [apply lookup_insert_eq|]. split.
    + intros k Hk1 Hk2. by rewrite lookup_insert_ne.
    + exists h, h, ex. split; [done|]. split; [|done].
      by rewrite lookup_insert_ne.
  - split; [by rewrite lookup_insert_ne, lookup_insert_eq|]. split.
    + intros k Hk1 Hk2. by rewrite !lookup_insert_ne.
    + exists h, (<[streamId r := ll2string (totalReceived r)]> h), ex.
      split; [done|]. split; [apply lookup_insert_eq|].
      intros f Hfne. by rewrite lookup_insert_ne.
Qed.

(** The second call of the scenario: total 15 against watermark 10,
    EXISTS at time 2 and the script at time 3. *)
Lemma scratch_key_witness :
  fst (getReceiptValue_timed 2 3 "uuid-2" (Scenario.receipt "s1" 15)
         Scenario.credited10)
    !! tempKey "uuid-2"
    = Some (Entry (RString (ll2string (15 - 10))) (Some (3 + 1)))
  /\ (forall k, k <> tempKey "uuid-2" -> k <> receiptKey "r1" ->
        fst (getReceiptValue_timed 2 3 "uuid-2" (Scenario.receipt "s1" 15)
               Scenario.credited10) !! k
        = Scenario.credited10 !! k)
  /\ (exists h h' ex,
        Scenario.credited10 !! receiptKey "r1" = Some (Entry (RHash h) ex)
        /\ fst (getReceiptValue_timed 2 3 "uuid-2" (Scenario.receipt "s1" 15)
                  Scenario.credited10) !! receiptKey "r1"
           = Some (Entry (RHash h') ex)
        /\ forall f, f <> "s1" -> h' !! f = h !! f).
Proof.
  apply (scratch_key_and_frame 2 3 "uuid-2" (Scenario.receipt "s1" 15) "10" 10
           Scenario.credited10).
  - lia.
  - vm_compute. reflexivity.
  - vm_compute. reflexivity.
  - lia.
  - vm_compute. split; discriminate.
Defined.

(** C10 as stated fails: after the call with total 15 against watermark
    10, the scratch key does not hold the cumulative total 15 (it holds
    the difference 5). *)
Lemma scratch_key_holds_difference :
  ~ (fst (getReceiptValue 2 "uuid-2" (Scenario.receipt "s1" 15) Scenario.credited10)
       !! tempKey "uuid-2"
     = Some (Entry (RString (Long.toString 15)) (Some (2 + 1)))).
Proof.
  intros H. vm_compute in H. discriminate H.
Qed.

(** ** The proxy registry *)

Example expandPointer_shorthand :
  expandPointer "$wallet.example/alice" = "https://wallet.example/alice".
Proof. reflexivity. Qed.

Lemma getPointer_stored now h href ex (d : db) :
  href <> "" -> unexpired now ex = true ->
  getPointer now h (<[h := Entry (RString href) ex]> d)
    = (<[h := Entry (RString href) ex]> d, Resolved href).
Proof.
  intros Hne Hlive. unfold getPointer.
  rewrite cmd_get_insert_string by done.
  destruct (String.eqb_spec href ""); [done|reflexivity].
Qed.

Lemma getPointer_deleted now h (d : db) :
  getPointer now h (cmd_del d h) = (cmd_del d h, Rejected NotFound).
Proof.
  unfold getPointer, cmd_get, cmd_del, lookupKey.
  by rewrite lookup_delete_eq.
Qed.

(** C8. For a pointer whose expansion the URL parser accepts, with [href]
    the canonical text: [createProxy] returns the digest of the pointer as
    given; a second [createProxy] of the same pointer returns the same
    digest and leaves the same store, with [href] under that key;
    [getPointer] of the digest returns [href]; and after [deleteProxy] of
    the digest, [getPointer] fails with NotFound. The parser is assumed
    never to return an empty text. *)
Theorem proxy_registry_round_trip
    (URL_href : string -> option string) (sha256_hex : string -> string)
    now1 now2 now3 now4 pointer href (d : db) :
  (forall s u, URL_href s = Some u -> u <> "") ->
  URL_href (expandPointer pointer) = Some href ->
  snd (createProxy now1 URL_href sha256_hex pointer d)
    = Resolved (sha256_hex pointer)
  /\ createProxy now2 URL_href sha256_hex pointer
       (fst (createProxy now1 URL_href sha256_hex pointer d))
     = (fst (createProxy now1 URL_href sha256_hex pointer d),
        Resolved (sha256_hex pointer))
  /\ cmd_get now2 (fst (createProxy now1 URL_href sha256_hex pointer d))
       (sha256_hex pointer) = Ok (Some href)
  /\ getPointer now3 (sha256_hex pointer)
       (fst (createProxy now1 URL_href sha256_hex pointer d))
     = (fst (createProxy now1 URL_href sha256_hex pointer d), Resolved href)
  /\ snd (getPointer now4 (sha256_hex pointer)
            (fst (deleteProxy (sha256_hex pointer)
                    (fst (createProxy now1 URL_href sha256_hex pointer d)))))
     = Rejected NotFound.
Proof.
  intros Hne Hurl. unfold createProxy. rewrite Hurl. cbn [fst snd].
  unfold cmd_set. cbn [fmap option_fmap option_map].
  split; [reflexivity|]. split; [by rewrite insert_insert_eq|].
  split; [by apply cmd_get_insert_string|].
  split; [apply getPointer_stored; eauto|].
  unfold deleteProxy. cbn [fst]. by rewrite getPointer_deleted.
Qed.

Lemma href_of_https_nonempty (s u : string) :
  Scenario.href_of_https s = Some u -> u <> "".
Proof.
  unfold Scenario.href_of_https. destruct s as [|a s]; [discriminate|].
  destruct (String.prefix _ _); [|discriminate]. intros [= <-]. discriminate.
Qed.

(** The proxy example of the specification, with the stand-ins for the
    parser and the digest. *)
Lemma proxy_registry_witness :
  snd (createProxy 1 Scenario.href_of_https Scenario.digest_stand_in
         "$wallet.example/alice" ∅)
    = Resolved (Scenario.digest_stand_in "$wallet.example/alice")
  /\ createProxy 2 Scenario.href_of_https Scenario.digest_stand_in
       "$wallet.example/alice"
       (fst (createProxy 1 Scenario.href_of_https Scenario.digest_stand_in
               "$wallet.example/alice" ∅))
     = (fst (createProxy 1 Scenario.href_of_https Scenario.digest_stand_in
               "$wallet.example/alice" ∅),
        Resolved (Scenario.digest_stand_in "$wallet.example/alice"))
  /\ cmd_get 2 (fst (createProxy 1 Scenario.href_of_https Scenario.digest_stand_in
                       "$wallet.example/alice" ∅))
       (Scenario.digest_stand_in "$wallet.example/alice")
     = Ok (Some "https://wallet.example/alice")
  /\ getPointer 3 (Scenario.digest_stand_in "$wallet.example/alice")
       (fst (createProxy 1 Scenario.href_of_https Scenario.digest_stand_in
               "$wallet.example/alice" ∅))
     = (fst (createProxy 1 Scenario.href_of_https Scenario.digest_stand_in
               "$wallet.example/alice" ∅),
        Resolved "https://wallet.example/alice")
  /\ snd (getPointer 4 (Scenario.digest_stand_in "$wallet.example/alice")
            (fst (deleteProxy (Scenario.digest_stand_in "$wallet.example/alice")
                    (fst (createProxy 1 Scenario.href_of_https
                            Scenario.digest_stand_in
                            "$wallet.example/alice" ∅)))))
     = Rejected NotFound.
Proof.
  apply (proxy_registry_round_trip Scenario.href_of_https Scenario.digest_stand_in
           1 2 3 4 "$wallet.example/alice" "https://wallet.example/alice" ∅).
  - exact href_of_https_nonempty.
  - vm_compute. reflexivity.
Defined.

(** * Further properties of the service *)

(** ** One call of the watermark tracker *)

Lemma stored_watermark_range (h : gmap string string) sid w :
  stored_watermark h sid w -> 0 <= w <= LLONG_MAX.
Proof.
  unfold stored_watermark. destruct (h !! sid) as [prev|].
  - intros [[_ Hr%in_range_bounds]%string2ll_Some Hw]. lia.
  - intros ->. unfold LLONG_MAX. lia.
Qed.

Lemma stored_watermark_text (h : gmap string string) sid w :
  0 <= w <= LLONG_MAX -> h !! sid = Some (ll2string w) -> stored_watermark h sid w.
Proof.
  intros Hw Hf. unfold stored_watermark. rewrite Hf. split; [|lia].
  by apply string2ll_ll2string, amount_in_range.
Qed.

(** The record as registration creates it: every stream reads as 0. *)
Lemma placeholder_watermark (sid : string) :
  stored_watermark {["dummy" := "0"]} sid 0.
Proof.
  unfold stored_watermark.
  destruct (decide (sid = "dummy")) as [->|Hne].
  - rewrite lookup_singleton_eq. split; [vm_compute; reflexivity|lia].
  - by rewrite lookup_singleton_ne.
Qed.

Lemma getReceiptValue_absent now uuid r (d : db) :
  cmd_exists now d (receiptKey (nonce r)) = false ->
  totalReceived r <= LLONG_MAX ->
  getReceiptValue now uuid r d = (d, Resolved 0).
Proof. apply getReceiptValue_timed_absent. Qed.

Lemma lookupKey_live now (d : db) k v ex :
  d !! k = Some (Entry v ex) -> unexpired now ex = true ->
  lookupKey now d k = Some (Entry v ex).
Proof. intros Hd Hl. apply lookupKey_Some. by split. Qed.

Lemma cmd_exists_live now (d : db) k v ex :
  d !! k = Some (Entry v ex) -> unexpired now ex = true ->
  cmd_exists now d k = true.
Proof.
  intros Hd Hl. unfold cmd_exists. by rewrite (lookupKey_live now d k v ex).
Qed.

(** On a record that is unexpired when EXISTS is answered and when the
    script runs, the delta is the advance of the watermark, and the
    watermark becomes the larger of its old value and the total. *)
Lemma getReceiptValue_timed_step now_exists now_script uuid r h ex w (d : db) :
  d !! receiptKey (nonce r) = Some (Entry (RHash h) ex) ->
  unexpired now_exists ex = true ->
  unexpired now_script ex = true ->
  stored_watermark h (streamId r) w ->
  0 <= w <= LLONG_MAX ->
  0 <= totalReceived r <= LLONG_MAX ->
  exists d' h',
    getReceiptValue_timed now_exists now_script uuid r d
      = (d', Resolved (Z.max w (totalReceived r) - w))
    /\ d' !! receiptKey (nonce r) = Some (Entry (RHash h') ex)
    /\ h' !! streamId r = Some (ll2string (Z.max w (totalReceived r)))
    /\ (forall f, f <> streamId r -> h' !! f = h !! f).
Proof.
  intros Hd Hle Hls Hw Hwr Ht.
  pose proof (cmd_exists_live now_exists d _ _ _ Hd Hle) as Hex.
  pose proof (lookupKey_live now_script d _ _ _ Hd Hls) as Hk.
  pose proof (tempKey_receiptKey uuid (nonce r)) as Hne.
  unfold stored_watermark in Hw. destruct (h !! streamId r) as [prev|] eqn:Hf.
  - destruct Hw as [Hp Hw0]. destruct (string2ll_Some _ _ Hp) as [Hprev _].
    rewrite (getReceiptValue_timed_known now_exists now_script uuid r h ex prev w)
      by auto.
    cbv zeta. destruct (Z.ltb_spec (totalReceived r) w).
    + eexists _, h. rewrite Z.max_l by lia. split; [f_equal; f_equal; lia|].
      split; [by rewrite lookup_insert_ne|]. split; [by rewrite Hf, Hprev|done].
    + eexists _, _. rewrite Z.max_r by lia. split; [reflexivity|].
      split; [apply lookup_insert_eq|]. split; [apply lookup_insert_eq|].
      intros f Hfne. by rewrite lookup_insert_ne.
  - subst w.
    rewrite (getReceiptValue_timed_first now_exists now_script uuid r h ex) by auto.
    eexists _, _. rewrite Z.max_r by lia. split; [f_equal; f_equal; lia|].
    split; [apply lookup_insert_eq|]. split; [apply lookup_insert_eq|].
    intros f Hfne. by rewrite lookup_insert_ne.
Qed.

Lemma creditableAmounts_timed_any_order n sid calls : forall (d : db) h ex w,
  d !! receiptKey n = Some (Entry (RHash h) ex) ->
  stored_watermark h sid w -> 0 <= w <= LLONG_MAX ->
  Forall (fun c => (unexpired (t_exists c) ex = true
                    /\ unexpired (t_script c) ex = true)
                   /\ 0 <= t_total c <= LLONG_MAX) calls ->
  all_resolved (snd (creditableAmounts_timed n sid calls d)) /\
  sum_deltas (snd (creditableAmounts_timed n sid calls d))
    = highest w (t_total <$> calls) - w /\
  exists h', fst (creditableAmounts_timed n sid calls d) !! receiptKey n
               = Some (Entry (RHash h') ex)
             /\ stored_watermark h' sid (highest w (t_total <$> calls)).
Proof.
  induction calls as [|c rest IH]; intros d h ex w Hd Hw Hwr Hall.
  - cbn. split; [constructor|]. split; [unfold highest; cbn; lia|]. eauto.
  - apply Forall_cons in Hall as [[[Hle Hls] Ht] Hall].
    cbn [creditableAmounts_timed].
    destruct (getReceiptValue_timed_step (t_exists c) (t_script c) (t_uuid c)
                {| nonce := n; streamId := sid; totalReceived := t_total c |}
                h ex w d Hd Hle Hls Hw Hwr Ht) as (d' & h' & -> & Hd' & Hf' & _).
    cbn [totalReceived nonce streamId fst snd] in *.
    assert (Hm : 0 <= Z.max w (t_total c) <= LLONG_MAX) by lia.
    destruct (IH d' h' ex (Z.max w (t_total c)) Hd'
                (stored_watermark_text _ _ _ Hm Hf') Hm Hall)
      as (Hres & Hsum & Hfin).
    split; [constructor; eauto|]. split.
    + cbn [sum_deltas]. rewrite Hsum.
      change (highest w (t_total <$> c :: rest))
        with (highest (Z.max w (t_total c)) (t_total <$> rest)). lia.
    + exact Hfin.
Qed.

(** X1. A receipt whose cumulative total exceeds 2^63-1 is rejected with
    the error of AmountOverflow before the store is consulted: the store
    is unchanged, whatever it holds. *)
Theorem oversized_total_rejected now uuid r (d : db) :
  LLONG_MAX < totalReceived r ->
  getReceiptValue now uuid r d = (d, Rejected AmountOverflow).
Proof.
  intros Ht. unfold getReceiptValue, getReceiptValue_timed. rewrite compare_MAX_VALUE.
  by destruct (Z.ltb_spec LLONG_MAX (totalReceived r)); [|lia].
Qed.

Lemma oversized_total_witness :
  getReceiptValue 2 "uuid-2" (Scenario.receipt "s1" (2 ^ 63)) Scenario.credited10
    = (Scenario.credited10, Rejected AmountOverflow).
Proof.
  apply (oversized_total_rejected 2 "uuid-2" (Scenario.receipt "s1" (2 ^ 63))).
  vm_compute. reflexivity.
Defined.

(** X2. Whatever the order in which the receipts of one stream arrive:
    on a record that stays unexpired through the run (it is unexpired
    when the EXISTS of each call is answered and when its script runs),
    with totals between 0 and 2^63-1, every call returns a delta, the
    deltas sum to the amount by which the watermark advanced (the
    highest of the old watermark and the totals, minus the old
    watermark), and that highest value is the watermark stored at the
    end; the record keeps its expiry. *)
Theorem deltas_sum_to_watermark_advance n sid calls (d : db) h ex w0 :
  d !! receiptKey n = Some (Entry (RHash h) ex) ->
  stored_watermark h sid w0 ->
  Forall (fun c => unexpired (t_exists c) ex = true
                   /\ unexpired (t_script c) ex = true) calls ->
  Forall (fun c => 0 <= t_total c <= LLONG_MAX) calls ->
  all_resolved (snd (creditableAmounts_timed n sid calls d)) /\
  sum_deltas (snd (creditableAmounts_timed n sid calls d))
    = highest w0 (t_total <$> calls) - w0 /\
  exists h', fst (creditableAmounts_timed n sid calls d) !! receiptKey n
               = Some (Entry (RHash h') ex)
             /\ stored_watermark h' sid (highest w0 (t_total <$> calls)).
Proof.
  intros Hd Hw Hlive Hrange.
  apply (creditableAmounts_timed_any_order n sid calls d h ex w0); auto.
  - by apply stored_watermark_range in Hw.
  - apply Forall_and. by split.
Qed.

(** Totals 15, 5, 20, 10 on the freshly registered record, the last
    script running one second before the expiry. *)
Lemma watermark_advance_witness :
  all_resolved
    (snd (creditableAmounts_timed "r1" "s1" Cases.shuffled_timed Scenario.registered)) /\
  sum_deltas
    (snd (creditableAmounts_timed "r1" "s1" Cases.shuffled_timed Scenario.registered))
    = highest 0 (t_total <$> Cases.shuffled_timed) - 0 /\
  exists h',
    fst (creditableAmounts_timed "r1" "s1" Cases.shuffled_timed Scenario.registered)
      !! receiptKey "r1"
      = Some (Entry (RHash h') (Some 300))
    /\ stored_watermark h' "s1" (highest 0 (t_total <$> Cases.shuffled_timed)).
Proof.
  apply (deltas_sum_to_watermark_advance "r1" "s1" Cases.shuffled_timed
           Scenario.registered {["dummy" := "0"]} (Some 300) 0).
  - vm_compute. reflexivity.
  - vm_compute. reflexivity.
  - repeat constructor.
  - repeat constructor; vm_compute; discriminate.
Defined.

Example shuffled_deltas :
  snd (creditableAmounts "r1" "s1" Cases.shuffled Scenario.registered)
    = [Resolved 15; Resolved 0; Resolved 5; Resolved 0].
Proof. vm_compute. reflexivity. Qed.

Example shuffled_timed_deltas :
  snd (creditableAmounts_timed "r1" "s1" Cases.shuffled_timed Scenario.registered)
    = [Resolved 15; Resolved 0; Resolved 5; Resolved 0].
Proof. vm_compute. reflexivity. Qed.

(** X3. A receipt submitted a second time is credited 0, and the second
    call leaves the stored watermark as the first call left it, when the
    record stays unexpired through both calls (it is unexpired when the
    EXISTS of each call is answered and when its script runs). *)
Theorem replayed_receipt_gives_zero
    now_exists1 now_script1 now_exists2 now_script2 uuid1 uuid2 r h ex w (d : db) :
  d !! receiptKey (nonce r) = Some (Entry (RHash h) ex) ->
  unexpired now_exists1 ex = true -> unexpired now_script1 ex = true ->
  unexpired now_exists2 ex = true -> unexpired now_script2 ex = true ->
  stored_watermark h (streamId r) w ->
  0 <= totalReceived r <= LLONG_MAX ->
  snd (getReceiptValue_timed now_exists2 now_script2 uuid2 r
         (fst (getReceiptValue_timed now_exists1 now_script1 uuid1 r d)))
    = Resolved 0 /\
  cmd_hget now_script2
    (fst (getReceiptValue_timed now_exists2 now_script2 uuid2 r
            (fst (getReceiptValue_timed now_exists1 now_script1 uuid1 r d))))
    (receiptKey (nonce r)) (streamId r)
  = cmd_hget now_script2 (fst (getReceiptValue_timed now_exists1 now_script1 uuid1 r d))
      (receiptKey (nonce r)) (streamId r).
Proof.
  intros Hd He1 Hs1 He2 Hs2 Hw Ht.
  pose proof (stored_watermark_range _ _ _ Hw) as Hwr.
  destruct (getReceiptValue_timed_step now_exists1 now_script1 uuid1 r h ex w d
              Hd He1 Hs1 Hw Hwr Ht)
    as (d1 & h1 & -> & Hd1 & Hf1 & _).
  cbn [fst].
  assert (Hm : 0 <= Z.max w (totalReceived r) <= LLONG_MAX) by lia.
  destruct (getReceiptValue_timed_step now_exists2 now_script2 uuid2 r h1 ex _ d1
              Hd1 He2 Hs2 (stored_watermark_text _ _ _ Hm Hf1) Hm Ht)
    as (d2 & h2 & -> & Hd2 & Hf2 & _).
  cbn [fst snd]. split; [f_equal; lia|].
  unfold cmd_hget.
  rewrite (lookupKey_live now_script2 d2 _ _ _ Hd2 Hs2).
  rewrite (lookupKey_live now_script2 d1 _ _ _ Hd1 Hs2).
  rewrite Hf1, Hf2. do 3 f_equal. lia.
Qed.

Lemma replayed_receipt_witness :
  snd (getReceiptValue_timed 3 4 "uuid-2" (Scenario.receipt "s1" 10)
         (fst (getReceiptValue_timed 1 2 "uuid-1" (Scenario.receipt "s1" 10)
                 Scenario.registered)))
    = Resolved 0 /\
  cmd_hget 4
    (fst (getReceiptValue_timed 3 4 "uuid-2" (Scenario.receipt "s1" 10)
            (fst (getReceiptValue_timed 1 2 "uuid-1" (Scenario.receipt "s1" 10)
                    Scenario.registered))))
    (receiptKey "r1") "s1"
  = cmd_hget 4 (fst (getReceiptValue_timed 1 2 "uuid-1" (Scenario.receipt "s1" 10)
                       Scenario.registered))
      (receiptKey "r1") "s1".
Proof.
  apply (replayed_receipt_gives_zero 1 2 3 4 "uuid-1" "uuid-2"
           (Scenario.receipt "s1" 10) {["dummy" := "0"]} (Some 300) 0
           Scenario.registered).
  - vm_compute. reflexivity.
  - reflexivity.
  - reflexivity.
  - reflexivity.
  - reflexivity.
  - vm_compute. reflexivity.
  - vm_compute. split; discriminate.
Defined.

(** ** Registration and the validity window *)

Lemma getReceiptValue_timed_same now uuid r (d : db) :
  getReceiptValue_timed now now uuid r d = getReceiptValue now uuid r d.
Proof. reflexivity. Qed.

(** The script on a key that is not there: it creates the record, with
    no expiry, and returns the whole amount. *)
Lemma lua_getReceiptValue_absent now key tk sid amount (d : db) :
  lookupKey now d key = None ->
  lua_getReceiptValue now key tk sid amount d
    = (<[key := Entry (RHash {[sid := amount]}) None]> d, Ok amount).
Proof.
  intros Hk.
  unfold lua_getReceiptValue, bind, call_read, call_write, ret.
  unfold cmd_hget. rewrite Hk. cbv beta.
  unfold cmd_hset. rewrite Hk. reflexivity.
Qed.

(** The script runs on a key that is gone although EXISTS found it. *)
Lemma getReceiptValue_timed_gone now_exists now_script uuid r (d : db) :
  cmd_exists now_exists d (receiptKey (nonce r)) = true ->
  lookupKey now_script d (receiptKey (nonce r)) = None ->
  0 <= totalReceived r <= LLONG_MAX ->
  getReceiptValue_timed now_exists now_script uuid r d
    = (<[receiptKey (nonce r) :=
           Entry (RHash {[streamId r := ll2string (totalReceived r)]}) None]> d,
       Resolved (totalReceived r)).
Proof.
  intros Hex Hk Ht. unfold getReceiptValue_timed. rewrite compare_MAX_VALUE.
  destruct (Z.ltb_spec LLONG_MAX (totalReceived r)); [lia|].
  rewrite Hex, lua_getReceiptValue_absent by done.
  unfold Long.toString, Long.fromString.
  by rewrite string2ll_ll2string by by apply amount_in_range.
Qed.

Lemma expire_accepts_in_range now s :
  expire_accepts now s = true -> in_range s = true.
Proof. unfold expire_accepts. by destruct (in_range s). Qed.

Lemma cmd_expire_refused now (d : db) k seconds :
  match seconds with
  | Integral s => expire_accepts now s = false
  | Unreadable => True
  end ->
  exists e, cmd_expire now d k seconds = Error e.
Proof.
  destruct seconds as [s|]; [|by eexists]. intros Hacc. unfold cmd_expire.
  rewrite Hacc. destruct (in_range s); by eexists.
Qed.

Lemma cmd_expire_deletes now (d : db) k ttl :
  ttl <= 0 -> expire_accepts now ttl = true ->
  cmd_expire now d k (Integral ttl)
    = Ok (match lookupKey now d k with Some _ => delete k d | None => d end).
Proof.
  intros Httl Hacc. unfold cmd_expire.
  rewrite Hacc, (expire_accepts_in_range _ _ Hacc). cbn [negb].
  destruct (lookupKey now d k) as [[v ex]|]; [|done].
  by destruct (Z.leb_spec ttl 0); [|lia].
Qed.

(** X4. After the registration of a receipt that had no record, under a
    configured validity that is a positive integer EXPIRE accepts, the
    first receipt of any stream, with a total between 0 and 2^63-1, is
    credited in full when its EXISTS is answered less than the configured
    number of seconds after the EXPIRE of the registration, whenever its
    script runs, and is credited 0 from then on. *)
Theorem first_receipt_after_registration
    config now_hset now_expire now_exists now_script ttl uuid r (d : db) :
  receiptTTLSeconds config = Integral ttl ->
  0 < ttl ->
  expire_accepts now_expire ttl = true ->
  cmd_exists now_hset d (receiptKey (nonce r)) = false ->
  0 <= totalReceived r <= LLONG_MAX ->
  snd (getReceiptValue_timed now_exists now_script uuid r
         (fst (setReceiptTTL_timed config now_hset now_expire (nonce r) d)))
    = Resolved (if now_exists <? now_expire + ttl then totalReceived r else 0).
Proof.
  intros Hcfg Httl Hacc Habs Ht.
  assert (Hk : lookupKey now_hset d (receiptKey (nonce r)) = None).
  { unfold cmd_exists in Habs. by destruct (lookupKey _ _ _). }
  rewrite (setReceiptTTL_timed_absent config now_hset now_expire _ ttl) by done.
  cbn [fst].
  destruct (Z.ltb_spec now_exists (now_expire + ttl)) as [Hin|Hout].
  - destruct (Z.ltb_spec now_script (now_expire + ttl)) as [Hs|Hs].
    + edestruct (getReceiptValue_timed_step now_exists now_script uuid r
                   {["dummy" := "0"]} (Some (now_expire + ttl)) 0)
        as (d' & h' & -> & _);
        [apply lookup_insert_eq| | |apply placeholder_watermark| |exact Ht|].
      * cbn. by apply Z.ltb_lt.
      * cbn. by apply Z.ltb_lt.
      * unfold LLONG_MAX. lia.
      * cbn [snd]. f_equal. lia.
    + rewrite getReceiptValue_timed_gone; [done| |  |exact Ht].
      * unfold cmd_exists. rewrite lookupKey_insert_eq.
        unfold alive. cbn [e_expire unexpired].
        by destruct (Z.ltb_spec now_exists (now_expire + ttl)); [|lia].
      * rewrite lookupKey_insert_eq. unfold alive. cbn [e_expire unexpired].
        by destruct (Z.ltb_spec now_script (now_expire + ttl)); [lia|].
  - rewrite getReceiptValue_timed_absent; [done| |lia].
    unfold cmd_exists. rewrite lookupKey_insert_eq.
    unfold alive. cbn [e_expire unexpired].
    by destruct (Z.ltb_spec now_exists (now_expire + ttl)); [lia|].
Qed.

(** One second before the end of the default window of 300 seconds, the
    script running at its end. *)
Lemma first_receipt_witness :
  snd (getReceiptValue_timed 300 301 "uuid-1" (Scenario.receipt "s1" 10)
         (fst (setReceiptTTL_timed Scenario.config 0 1 "r1" ∅)))
    = Resolved (if 300 <? 1 + 300 then 10 else 0).
Proof.
  apply (first_receipt_after_registration Scenario.config 0 1 300 301 300
           "uuid-1" (Scenario.receipt "s1" 10) ∅).
  - reflexivity.
  - lia.
  - vm_compute. reflexivity.
  - reflexivity.
  - vm_compute. split; discriminate.
Defined.

(** X5. The registration test (EXISTS) and the script are two separate
    calls to the store. When the record expires between them, the script
    finds no record, creates one holding only the stream's total, without
    expiry, and the receipt is credited its whole cumulative total; the
    record then exists at every later time. *)
Theorem expiry_between_check_and_script now_exists now_script uuid r v t (d : db) :
  d !! receiptKey (nonce r) = Some (Entry v (Some t)) ->
  now_exists < t <= now_script ->
  0 <= totalReceived r <= LLONG_MAX ->
  getReceiptValue_timed now_exists now_script uuid r d
    = (<[receiptKey (nonce r) :=
           Entry (RHash {[streamId r := ll2string (totalReceived r)]}) None]> d,
       Resolved (totalReceived r))
  /\ forall later,
       cmd_exists later (fst (getReceiptValue_timed now_exists now_script uuid r d))
         (receiptKey (nonce r)) = true.
Proof.
  intros Hd Ht Hr.
  assert (Heq : getReceiptValue_timed now_exists now_script uuid r d
    = (<[receiptKey (nonce r) :=
           Entry (RHash {[streamId r := ll2string (totalReceived r)]}) None]> d,
       Resolved (totalReceived r))).
  { unfold getReceiptValue_timed. rewrite compare_MAX_VALUE.
    destruct (Z.ltb_spec LLONG_MAX (totalReceived r)); [lia|].
    unfold cmd_exists at 1.
    rewrite (proj2 (lookupKey_Some now_exists d _ (Entry v (Some t)))); cycle 1.
    { split; [exact Hd|]. unfold alive. cbn. apply Z.ltb_lt. lia. }
    rewrite lua_getReceiptValue_absent; cycle 1.
    { unfold lookupKey. rewrite Hd. unfold alive. cbn.
      by destruct (Z.ltb_spec now_script t); [lia|]. }
    unfold Long.toString, Long.fromString.
    by rewrite string2ll_ll2string by by apply amount_in_range. }
  split; [exact Heq|]. intros later. rewrite Heq. cbn [fst].
  unfold cmd_exists. by rewrite lookupKey_insert_eq.
Qed.

(** The record of the scenario (watermark 15, expiring at 300): EXISTS at
    299, the script at 300, a receipt with total 40. *)
Lemma expiry_race_witness :
  getReceiptValue_timed 299 300 "uuid-9" (Scenario.receipt "s1" 40) Scenario.credited15
    = (<[receiptKey "r1" :=
           Entry (RHash {["s1" := ll2string 40]}) None]> Scenario.credited15,
       Resolved 40)
  /\ forall later,
       cmd_exists later
         (fst (getReceiptValue_timed 299 300 "uuid-9" (Scenario.receipt "s1" 40)
                 Scenario.credited15))
         (receiptKey "r1") = true.
Proof.
  refine (expiry_between_check_and_script 299 300 "uuid-9"
            (Scenario.receipt "s1" 40) _ 300 Scenario.credited15 _ _ _).
  - vm_compute. reflexivity.
  - lia.
  - vm_compute. split; discriminate.
Defined.

(** X6. Registering a receipt again, while its record is unexpired,
    does not reopen what was credited. Let the configured validity be a
    positive integer EXPIRE accepts and the record be unexpired at the
    HSET and at the EXPIRE of the second registration. For a stream
    other than the one named like the placeholder field, a receipt whose
    total does not exceed the stored watermark is still credited 0 after
    the second registration, unless the new expiry falls between the
    EXISTS and the script of its call. *)
Theorem registration_keeps_replay_protection
    config now_hset now_expire now_exists now_script ttl uuid r h ex prev w
    (d : db) :
  receiptTTLSeconds config = Integral ttl ->
  0 < ttl ->
  expire_accepts now_expire ttl = true ->
  lookupKey now_hset d (receiptKey (nonce r)) = Some (Entry (RHash h) ex) ->
  unexpired now_expire ex = true ->
  streamId r <> "dummy" ->
  h !! streamId r = Some prev -> string2ll prev = Some w ->
  0 <= totalReceived r <= w ->
  now_script < now_expire + ttl \/ now_expire + ttl <= now_exists ->
  snd (getReceiptValue_timed now_exists now_script uuid r
         (fst (setReceiptTTL_timed config now_hset now_expire (nonce r) d)))
    = Resolved 0.
Proof.
  intros Hcfg Httl Hacc Hk Hlive Hsid Hf Hp Ht Hnow.
  destruct (string2ll_Some _ _ Hp) as [_ Hr%in_range_bounds].
  rewrite (setReceiptTTL_timed_present config now_hset now_expire (nonce r)
             ttl h ex) by done.
  cbn [fst].
  destruct (Z.ltb_spec now_exists (now_expire + ttl)) as [Hin|Hout].
  - destruct Hnow as [Hs|Hs]; [|lia].
    edestruct (getReceiptValue_timed_step now_exists now_script uuid r
                 (<["dummy" := "0"]> h) (Some (now_expire + ttl)) w)
      as (d' & h' & -> & _); [apply lookup_insert_eq| | | | | |].
    + cbn. by apply Z.ltb_lt.
    + cbn. by apply Z.ltb_lt.
    + unfold stored_watermark. rewrite lookup_insert_ne by done.
      rewrite Hf. split; [done|lia].
    + lia.
    + lia.
    + cbn [snd]. f_equal. lia.
  - rewrite getReceiptValue_timed_absent; [done| |lia].
    unfold cmd_exists. rewrite lookupKey_insert_eq.
    unfold alive. cbn [e_expire unexpired].
    by destruct (Z.ltb_spec now_exists (now_expire + ttl)); [lia|].
Qed.

(** The record of the scenario registered again (HSET at 10, EXPIRE at
    11), then the receipt with total 15 once more. *)
Lemma replay_protection_witness :
  snd (getReceiptValue_timed 20 21 "uuid-5" (Scenario.receipt "s1" 15)
         (fst (setReceiptTTL_timed Scenario.config 10 11 "r1" Scenario.credited15)))
    = Resolved 0.
Proof.
  refine (registration_keeps_replay_protection Scenario.config 10 11 20 21 300
            "uuid-5" (Scenario.receipt "s1" 15) _ _ "15" 15 Scenario.credited15
            _ _ _ _ _ _ _ _ _ _).
  - reflexivity.
  - lia.
  - vm_compute. reflexivity.
  - vm_compute. reflexivity.
  - reflexivity.
  - discriminate.
  - vm_compute. reflexivity.
  - vm_compute. reflexivity.
  - cbn. lia.
  - left. lia.
Defined.

(** X7. [Number(env.RECEIPT_TTL) || 300]: when the number is NaN (the
    variable is unset), 0 or a positive integer, the configured validity
    is never 0. When EXPIRE accepts it, the key does not hold a plain
    string, and a record that is there at HSET is unexpired still at
    EXPIRE, the registration succeeds and leaves a record whose expiry
    lies after the time of EXPIRE; RECEIPT_TTL = 0, like an unset
    variable, does not mean immediate expiry but the default of 300
    seconds. *)
Theorem registration_under_env RECEIPT_TTL now_hset now_expire n (d : db) :
  match RECEIPT_TTL with
  | Some (Integral v) => 0 <= v
  | Some Unreadable => False
  | None => True
  end ->
  (forall ttl, receiptTTLSeconds (Config_of_env RECEIPT_TTL) = Integral ttl ->
               expire_accepts now_expire ttl = true) ->
  (forall s ex,
     lookupKey now_hset d (receiptKey n) <> Some (Entry (RString s) ex)) ->
  (forall v ex,
     lookupKey now_hset d (receiptKey n) = Some (Entry v ex) ->
     unexpired now_expire ex = true) ->
  receiptTTLSeconds (Config_of_env RECEIPT_TTL) <> Integral 0
  /\ snd (setReceiptTTL_timed (Config_of_env RECEIPT_TTL) now_hset now_expire n d)
     = Resolved tt
  /\ exists v t,
       fst (setReceiptTTL_timed (Config_of_env RECEIPT_TTL) now_hset now_expire n d)
         !! receiptKey n
         = Some (Entry v (Some t))
       /\ now_expire < t
       /\ (RECEIPT_TTL = Some (Integral 0) \/ RECEIPT_TTL = None ->
           t = now_expire + 300).
Proof.
  intros Henv Hacc Hty Hlive.
  assert (Hcfg : exists ttl,
    receiptTTLSeconds (Config_of_env RECEIPT_TTL) = Integral ttl /\ 0 < ttl /\
    (RECEIPT_TTL = Some (Integral 0) \/ RECEIPT_TTL = None -> ttl = 300)).
  { unfold Config_of_env. cbn [receiptTTLSeconds].
    destruct RECEIPT_TTL as [[v|]|]; [|done|].
    - destruct (Z.eqb_spec v 0) as [->|Hv].
      + exists 300. split; [done|]. split; [lia|done].
      + exists v. split; [done|]. split; [lia|].
        intros [[= ->]|[=]]. done.
    - exists 300. split; [done|]. split; [lia|done]. }
  destruct Hcfg as (ttl & Hcfg & Hpos & Hdef).
  specialize (Hacc ttl Hcfg).
  split; [rewrite Hcfg; intros [= ->]; lia|].
  destruct (lookupKey now_hset d (receiptKey n)) as [[[s|h] ex]|] eqn:Hk.
  - by destruct (Hty s ex).
  - rewrite (setReceiptTTL_timed_present _ now_hset now_expire n ttl h ex);
      [|done..|by apply (Hlive (RHash h))].
    split; [done|]. eexists _, _. cbn [fst].
    split; [apply lookup_insert_eq|]. split; [lia|].
    intros H0. by rewrite Hdef.
  - rewrite (setReceiptTTL_timed_absent _ now_hset now_expire n ttl) by done.
    split; [done|]. eexists _, _. cbn [fst].
    split; [apply lookup_insert_eq|]. split; [lia|].
    intros H0. by rewrite Hdef.
Qed.

Lemma registration_under_env_witness :
  receiptTTLSeconds (Config_of_env (Some (Integral 0))) <> Integral 0
  /\ snd (setReceiptTTL_timed (Config_of_env (Some (Integral 0))) 7 8 "r1" ∅)
     = Resolved tt
  /\ exists v t,
       fst (setReceiptTTL_timed (Config_of_env (Some (Integral 0))) 7 8 "r1" ∅)
         !! receiptKey "r1"
         = Some (Entry v (Some t))
       /\ 8 < t
       /\ (Some (Integral 0) = Some (Integral 0) \/ Some (Integral 0) = None ->
           t = 8 + 300).
Proof.
  apply (registration_under_env (Some (Integral 0)) 7 8 "r1" ∅).
  - lia.
  - intros ttl [= <-]. vm_compute. reflexivity.
  - intros s ex. vm_compute. discriminate.
  - intros v ex. vm_compute. discriminate.
Defined.

(** The text 9007199254740993 (2^53 + 1) is read as the number 2^53. *)
Example Number_rounds_to_even :
  Number_of_integer_text (2 ^ 53 + 1) = Integral (2 ^ 53)
  /\ Number_of_integer_text (2 ^ 53 + 3) = Integral (2 ^ 53 + 4)
  /\ Number_of_integer_text (10 ^ 400) = Unreadable.
Proof. vm_compute. auto. Qed.

(** X8. With a configured validity that is an integer not above 0 which
    EXPIRE accepts (a negative RECEIPT_TTL within its range), a
    registration succeeds and leaves no record of the receipt, stored
    watermarks included: from the time of EXPIRE on no record exists and
    every receipt of that nonce with a total of at most 2^63-1 is
    credited 0, the store staying as it is. *)
Theorem nonpositive_ttl_deletes_record
    config now_hset now_expire n ttl uuid r (d : db) :
  receiptTTLSeconds config = Integral ttl ->
  ttl <= 0 ->
  expire_accepts now_expire ttl = true ->
  (forall s ex,
     lookupKey now_hset d (receiptKey n) <> Some (Entry (RString s) ex)) ->
  nonce r = n -> totalReceived r <= LLONG_MAX ->
  snd (setReceiptTTL_timed config now_hset now_expire n d) = Resolved tt
  /\ (forall later, now_expire <= later ->
        cmd_exists later (fst (setReceiptTTL_timed config now_hset now_expire n d))
          (receiptKey n) = false)
  /\ forall now_exists now_script, now_expire <= now_exists ->
       getReceiptValue_timed now_exists now_script uuid r
         (fst (setReceiptTTL_timed config now_hset now_expire n d))
       = (fst (setReceiptTTL_timed config now_hset now_expire n d), Resolved 0).
Proof.
  intros Hcfg Httl Hacc Hty <- Ht.
  assert (Hres : snd (setReceiptTTL_timed config now_hset now_expire (nonce r) d)
                 = Resolved tt
    /\ forall later, now_expire <= later ->
        cmd_exists later
          (fst (setReceiptTTL_timed config now_hset now_expire (nonce r) d))
          (receiptKey (nonce r)) = false).
  { unfold setReceiptTTL_timed, cmd_hset. rewrite Hcfg.
    destruct (lookupKey now_hset d (receiptKey (nonce r))) as [[[s|h] ex]|] eqn:Hk.
    - by destruct (Hty s ex).
    - rewrite cmd_expire_deletes by done. rewrite lookupKey_insert_eq.
      unfold alive. cbn [e_expire fst snd].
      destruct (unexpired now_expire ex) eqn:Hex; cbn [fst snd].
      + split; [done|]. intros later _.
        unfold cmd_exists, lookupKey. by rewrite lookup_delete_eq.
      + split; [done|]. intros later Hlater.
        unfold cmd_exists. rewrite lookupKey_insert_eq.
        unfold alive. cbn [e_expire].
        destruct (unexpired later ex) eqn:Hl; [|done].
        by rewrite (unexpired_earlier now_expire later ex Hlater Hl) in Hex.
    - rewrite cmd_expire_deletes by done. rewrite lookupKey_insert_eq.
      cbn [alive e_expire unexpired fst snd].
      split; [done|]. intros later _.
      unfold cmd_exists, lookupKey. by rewrite lookup_delete_eq. }
  destruct Hres as [Hsnd Hgone]. split; [exact Hsnd|]. split; [exact Hgone|].
  intros now_exists now_script Hle.
  apply getReceiptValue_timed_absent; [|done]. by apply Hgone.
Qed.

(** RECEIPT_TTL = -5 and the record of the scenario. *)
Lemma nonpositive_ttl_witness :
  snd (setReceiptTTL_timed (Config_of_env (Some (Integral (-5)))) 10 11 "r1"
         Scenario.credited15) = Resolved tt
  /\ (forall later, 11 <= later ->
        cmd_exists later
          (fst (setReceiptTTL_timed (Config_of_env (Some (Integral (-5)))) 10 11
                  "r1" Scenario.credited15))
          (receiptKey "r1") = false)
  /\ forall now_exists now_script, 11 <= now_exists ->
       getReceiptValue_timed now_exists now_script "uuid-7"
         (Scenario.receipt "s1" 20)
         (fst (setReceiptTTL_timed (Config_of_env (Some (Integral (-5)))) 10 11
                 "r1" Scenario.credited15))
       = (fst (setReceiptTTL_timed (Config_of_env (Some (Integral (-5)))) 10 11
                 "r1" Scenario.credited15),
          Resolved 0).
Proof.
  apply (nonpositive_ttl_deletes_record (Config_of_env (Some (Integral (-5))))
           10 11 "r1" (-5) "uuid-7" (Scenario.receipt "s1" 20)
           Scenario.credited15).
  - reflexivity.
  - lia.
  - vm_compute. reflexivity.
  - intros s ex. vm_compute. discriminate.
  - reflexivity.
  - vm_compute. discriminate.
Defined.

(** X23. A configured validity that EXPIRE refuses (a number that is not
    an integer, such as 1.5, or not a signed 64-bit integer, or whose
    expiry time overflows) makes the registration fail after its HSET
    has been carried out: on a receipt that had no record, the call
    rejects with the error of the store, the record is left with the
    placeholder field and without expiry, it exists at every later time,
    and the first receipt of any stream with a total between 0 and
    2^63-1 is credited in full whenever it comes. *)
Theorem refused_ttl_leaves_record_without_expiry
    config now_hset now_expire n uuid r (d : db) :
  match receiptTTLSeconds config with
  | Integral s => expire_accepts now_expire s = false
  | Unreadable => True
  end ->
  lookupKey now_hset d (receiptKey n) = None ->
  nonce r = n -> 0 <= totalReceived r <= LLONG_MAX ->
  (exists e,
     setReceiptTTL_timed config now_hset now_expire n d
     = (<[receiptKey n := Entry (RHash {["dummy" := "0"]}) None]> d,
        Rejected (ReplyError e)))
  /\ (forall later,
        cmd_exists later (fst (setReceiptTTL_timed config now_hset now_expire n d))
          (receiptKey n) = true)
  /\ forall now_exists now_script,
       snd (getReceiptValue_timed now_exists now_script uuid r
              (fst (setReceiptTTL_timed config now_hset now_expire n d)))
       = Resolved (totalReceived r).
Proof.
  intros Href Hk <- Ht.
  assert (Heq : exists e,
     setReceiptTTL_timed config now_hset now_expire (nonce r) d
     = (<[receiptKey (nonce r) := Entry (RHash {["dummy" := "0"]}) None]> d,
        Rejected (ReplyError e))).
  { unfold setReceiptTTL_timed, cmd_hset. rewrite Hk.
    destruct (cmd_expire_refused now_expire
                (<[receiptKey (nonce r) := Entry (RHash {["dummy" := "0"]}) None]> d)
                (receiptKey (nonce r)) (receiptTTLSeconds config) Href)
      as [e ->].
    by exists e. }
  destruct Heq as [e Heq]. split; [by exists e|]. rewrite Heq. cbn [fst].
  split.
  - intros later. unfold cmd_exists. by rewrite lookupKey_insert_eq.
  - intros now_exists now_script.
    edestruct (getReceiptValue_timed_step now_exists now_script uuid r
                 {["dummy" := "0"]} None 0)
      as (d' & h' & -> & _);
      [apply lookup_insert_eq|done|done|apply placeholder_watermark| |exact Ht|].
    + unfold LLONG_MAX. lia.
    + cbn [snd]. f_equal. lia.
Qed.

(** RECEIPT_TTL = 1.5: the registration of "r1" on the empty store is
    refused at EXPIRE, and a receipt that comes a year later is credited. *)
Lemma refused_ttl_witness :
  (exists e,
     setReceiptTTL_timed (Config_of_env (Some Unreadable)) 0 1 "r1" ∅
     = (<[receiptKey "r1" := Entry (RHash {["dummy" := "0"]}) None]> ∅,
        Rejected (ReplyError e)))
  /\ (forall later,
        cmd_exists later
          (fst (setReceiptTTL_timed (Config_of_env (Some Unreadable)) 0 1 "r1" ∅))
          (receiptKey "r1") = true)
  /\ forall now_exists now_script,
       snd (getReceiptValue_timed now_exists now_script "uuid-1"
              (Scenario.receipt "s1" 10)
              (fst (setReceiptTTL_timed (Config_of_env (Some Unreadable)) 0 1
                      "r1" ∅)))
       = Resolved 10.
Proof.
  apply (refused_ttl_leaves_record_without_expiry (Config_of_env (Some Unreadable))
           0 1 "r1" "uuid-1" (Scenario.receipt "s1" 10) ∅).
  - exact I.
  - reflexivity.
  - reflexivity.
  - vm_compute. split; discriminate.
Defined.

(** X25. HSET and EXPIRE are two separate calls to the store. When the
    record of the receipt expires between them, under a configured
    validity that EXPIRE accepts, HSET writes the placeholder into the
    record on its last moment, EXPIRE finds no key and sets nothing, and
    the registration succeeds all the same: from the time of EXPIRE on no
    record of the receipt exists. *)
Theorem expiry_between_hset_and_expire
    config now_hset now_expire n ttl h t (d : db) :
  receiptTTLSeconds config = Integral ttl ->
  expire_accepts now_expire ttl = true ->
  d !! receiptKey n = Some (Entry (RHash h) (Some t)) ->
  now_hset < t <= now_expire ->
  setReceiptTTL_timed config now_hset now_expire n d
    = (<[receiptKey n := Entry (RHash (<["dummy" := "0"]> h)) (Some t)]> d,
       Resolved tt)
  /\ forall later, now_expire <= later ->
       cmd_exists later (fst (setReceiptTTL_timed config now_hset now_expire n d))
         (receiptKey n) = false.
Proof.
  intros Hcfg Hacc Hd Ht.
  assert (Heq : setReceiptTTL_timed config now_hset now_expire n d
    = (<[receiptKey n := Entry (RHash (<["dummy" := "0"]> h)) (Some t)]> d,
       Resolved tt)).
  { unfold setReceiptTTL_timed, cmd_hset.
    rewrite (lookupKey_live now_hset d _ (RHash h) (Some t) Hd)
      by (cbn; apply Z.ltb_lt; lia).
    rewrite Hcfg. unfold cmd_expire.
    rewrite Hacc, (expire_accepts_in_range _ _ Hacc). cbn [negb].
    rewrite lookupKey_insert_eq. unfold alive. cbn [e_expire unexpired].
    by destruct (Z.ltb_spec now_expire t); [lia|]. }
  split; [exact Heq|]. intros later Hlater. rewrite Heq. cbn [fst].
  unfold cmd_exists. rewrite lookupKey_insert_eq.
  unfold alive. cbn [e_expire unexpired].
  by destruct (Z.ltb_spec later t); [lia|].
Qed.

(** The record of the scenario, which expires at 300: HSET at 299,
    EXPIRE at 300. *)
Lemma registration_race_witness :
  setReceiptTTL_timed Scenario.config 299 300 "r1" Scenario.credited15
    = (<[receiptKey "r1" :=
           Entry (RHash (<["dummy" := "0"]> {["dummy" := "0"; "s1" := "15"]}))
             (Some 300)]> Scenario.credited15,
       Resolved tt)
  /\ forall later, 300 <= later ->
       cmd_exists later
         (fst (setReceiptTTL_timed Scenario.config 299 300 "r1" Scenario.credited15))
         (receiptKey "r1") = false.
Proof.
  apply (expiry_between_hset_and_expire Scenario.config 299 300 "r1" 300
           {["dummy" := "0"; "s1" := "15"]} 300 Scenario.credited15).
  - reflexivity.
  - vm_compute. reflexivity.
  - vm_compute. reflexivity.
  - lia.
Defined.

(** The positive integer 2^63 is refused as well, after the HSET. *)
Example oversized_ttl_refused :
  setReceiptTTL_timed (Config_of_env (Some (Number_of_integer_text (2 ^ 63))))
    0 1 "r1" ∅
  = (<[receiptKey "r1" := Entry (RHash {["dummy" := "0"]}) None]> ∅,
     Rejected (ReplyError ERR_not_an_integer)).
Proof. vm_compute. reflexivity. Qed.

(** ** What a call leaves alone *)

Lemma only_key_refl k (d : db) : only_key k d d.
Proof. by intros k' _. Qed.

Lemma only_key_insert k e (d d' : db) :
  only_key k d d' -> only_key k d (<[k := e]> d').
Proof. intros H k' Hne. rewrite lookup_insert_ne by done. by apply H. Qed.

Lemma incrDecr_only_key now k i (d d' : db) :
  incrDecr now d k i = Ok d' -> only_key k d d'.
Proof.
  unfold incrDecr. intros H.
  destruct (lookupKey now d k) as [[[s|h] ex]|].
  - destruct (string2ll s); [|discriminate].
    destruct (would_overflow _ _); [discriminate|].
    injection H as <-. apply only_key_insert, only_key_refl.
  - discriminate.
  - injection H as <-. apply only_key_insert, only_key_refl.
Qed.

Lemma cmd_incrby_only_key now k a (d d' : db) :
  cmd_incrby now d k a = Ok d' -> only_key k d d'.
Proof.
  unfold cmd_incrby. destruct (string2ll a); [|discriminate].
  apply incrDecr_only_key.
Qed.

Lemma cmd_decrby_only_key now k a (d d' : db) :
  cmd_decrby now d k a = Ok d' -> only_key k d d'.
Proof.
  unfold cmd_decrby. destruct (string2ll a); [|discriminate].
  destruct (_ =? _); [discriminate|]. apply incrDecr_only_key.
Qed.

Lemma cmd_hset_only_key now k f v (d d' : db) :
  cmd_hset now d k f v = Ok d' -> only_key k d d'.
Proof.
  unfold cmd_hset. intros H.
  destruct (lookupKey now d k) as [[[s|h] ex]|]; try discriminate;
    injection H as <-; apply only_key_insert, only_key_refl.
Qed.

Lemma call_write_only_key k (c : db -> reply db) (d : db) :
  (forall d', c d = Ok d' -> only_key k d d') ->
  only_key k d (fst (call_write c d)).
Proof.
  intros H. unfold call_write. destruct (c d) as [d'|e] eqn:Hc; cbn.
  - by apply H.
  - apply only_key_refl.
Qed.

(** The ledger scripts write the balance key and nothing else. *)
Lemma lua_creditBalance_only_key now k a (d : db) :
  only_key k d (fst (lua_creditBalance now k a d)).
Proof.
  unfold lua_creditBalance, bind, call_write, call_read.
  destruct (cmd_incrby now d k a) as [d'|e] eqn:Hc; cbn.
  - by apply cmd_incrby_only_key in Hc.
  - apply only_key_refl.
Qed.

Lemma lua_spendBalance_only_key now k a (d : db) :
  only_key k d (fst (lua_spendBalance now k a d)).
Proof.
  unfold lua_spendBalance, bind, call_write, call_read, ret, error_reply.
  destruct (cmd_get now d k) as [[s|]|e]; cbn; try apply only_key_refl.
  destruct (cmd_decrby now d k a) as [d1|e] eqn:Hdec; cbn;
    [|apply only_key_refl].
  apply cmd_decrby_only_key in Hdec.
  destruct (cmd_get now d1 k) as [[s1|]|e]; cbn; try exact Hdec.
  destruct (starts_with_minus s1); cbn; [|exact Hdec].
  destruct (cmd_incrby now d1 k a) as [d2|e] eqn:Hinc; cbn; [|exact Hdec].
  apply cmd_incrby_only_key in Hinc.
  intros k' Hne. rewrite Hinc, Hdec by done. reflexivity.
Qed.

Lemma lookupKey_ext now (d d' : db) k :
  d' !! k = d !! k -> lookupKey now d' k = lookupKey now d k.
Proof. unfold lookupKey. by intros ->. Qed.

Lemma balanceKey_inj (id id' : string) : balanceKey id = balanceKey id' -> id = id'.
Proof. unfold balanceKey. cbn. by intros [=]. Qed.

Lemma balanceKey_receiptKey (id n : string) : balanceKey id <> receiptKey n.
Proof. unfold balanceKey, receiptKey. cbn. discriminate. Qed.

Lemma balanceKey_tempKey (id u : string) : balanceKey id <> tempKey u.
Proof. unfold balanceKey, tempKey. cbn. discriminate. Qed.

Lemma creditBalance_only_key now id a (d : db) :
  only_key (balanceKey id) d (fst (creditBalance now id a d)).
Proof.
  unfold creditBalance.
  destruct (Long.isNegative a); [apply only_key_refl|].
  destruct (_ =? 1); [apply only_key_refl|].
  pose proof (lua_creditBalance_only_key now (balanceKey id) (Long.toString a) d) as H.
  destruct (lua_creditBalance _ _ _ _) as [d' [[s|]|e]]; cbn in *; try exact H.
  destruct (Long.fromString s); exact H.
Qed.

Lemma spendBalance_only_key now id a (d : db) :
  only_key (balanceKey id) d (fst (spendBalance now id a d)).
Proof.
  unfold spendBalance.
  destruct (Long.isNegative a); [apply only_key_refl|].
  destruct (_ =? 1); [apply only_key_refl|].
  pose proof (lua_spendBalance_only_key now (balanceKey id) (Long.toString a) d) as H.
  destruct (lua_spendBalance _ _ _ _) as [d' [s|e]]; cbn in *; try exact H.
  destruct (Long.fromString s); exact H.
Qed.

Lemma balanceValue_ext now (d d' : db) id :
  d' !! balanceKey id = d !! balanceKey id ->
  balanceValue now d' id = balanceValue now d id.
Proof.
  intros H. unfold balanceValue, cmd_get. by rewrite (lookupKey_ext now d d' _ H).
Qed.

Lemma cmd_hget_ext now (d d' : db) k f :
  d' !! k = d !! k -> cmd_hget now d' k f = cmd_hget now d k f.
Proof. intros H. unfold cmd_hget. by rewrite (lookupKey_ext now d d' _ H). Qed.

(** X10. A credit or a spend, whether it succeeds or fails, changes no
    key of the store other than the balance key of its own identifier: the
    balance of every other identifier and every receipt record read as
    before. *)
Theorem ledger_touches_only_its_key now id amount (d : db) :
  (forall k, k <> balanceKey id ->
     fst (creditBalance now id amount d) !! k = d !! k /\
     fst (spendBalance now id amount d) !! k = d !! k) /\
  (forall id' now', id' <> id ->
     balanceValue now' (fst (creditBalance now id amount d)) id'
       = balanceValue now' d id' /\
     balanceValue now' (fst (spendBalance now id amount d)) id'
       = balanceValue now' d id') /\
  (forall n sid now',
     cmd_hget now' (fst (creditBalance now id amount d)) (receiptKey n) sid
       = cmd_hget now' d (receiptKey n) sid /\
     cmd_hget now' (fst (spendBalance now id amount d)) (receiptKey n) sid
       = cmd_hget now' d (receiptKey n) sid).
Proof.
  pose proof (creditBalance_only_key now id amount d) as Hc.
  pose proof (spendBalance_only_key now id amount d) as Hs.
  split; [|split].
  - intros k Hk. split; [by apply Hc|by apply Hs].
  - intros id' now' Hne.
    assert (balanceKey id' <> balanceKey id) by (intros ?%balanceKey_inj; done).
    split; apply balanceValue_ext; [by apply Hc|by apply Hs].
  - intros n sid now'.
    assert (receiptKey n <> balanceKey id)
      by (intros Heq; by apply (balanceKey_receiptKey id n)).
    split; apply cmd_hget_ext; [by apply Hc|by apply Hs].
Qed.

Lemma lua_getReceiptValue_frame now key tk sid amount (d : db) :
  tk <> key ->
  (forall k, k <> tk -> k <> key ->
     fst (lua_getReceiptValue now key tk sid amount d) !! k = d !! k) /\
  (forall h ex, lookupKey now d key = Some (Entry (RHash h) ex) ->
     exists h', fst (lua_getReceiptValue now key tk sid amount d) !! key
                  = Some (Entry (RHash h') ex)
                /\ forall f, f <> sid -> h' !! f = h !! f).
Proof.
  intros Hne.
  assert (Hfin : forall d2, only_key tk d d2 ->
    (forall k, k <> tk -> k <> key -> d2 !! k = d !! k) /\
    (forall h ex, lookupKey now d key = Some (Entry (RHash h) ex) ->
       exists h', d2 !! key = Some (Entry (RHash h') ex)
                  /\ forall f, f <> sid -> h' !! f = h !! f)).
  { intros d2 H2. split; [intros k Hk1 _; by apply H2|].
    intros h ex [Hraw _]%lookupKey_Some. exists h. split; [|done].
    rewrite H2 by done. exact Hraw. }
  assert (Hset : forall d2, only_key tk d d2 ->
    match cmd_hset now d2 key sid amount with
    | Ok d3 =>
        (forall k, k <> tk -> k <> key -> d3 !! k = d !! k) /\
        (forall h ex, lookupKey now d key = Some (Entry (RHash h) ex) ->
           exists h', d3 !! key = Some (Entry (RHash h') ex)
                      /\ forall f, f <> sid -> h' !! f = h !! f)
    | Error _ => True
    end).
  { intros d2 H2. unfold cmd_hset.
    rewrite (lookupKey_ext now d d2 key) by (apply H2; done).
    destruct (lookupKey now d key) as [[[s|h] ex]|]; [done| |].
    - split.
      + intros k Hk1 Hk2. rewrite lookup_insert_ne by done. by apply H2.
      + intros h0 ex0 [= <- <-]. eexists. split; [apply lookup_insert_eq|].
        intros f Hfne. by rewrite lookup_insert_ne.
    - split.
      + intros k Hk1 Hk2. rewrite lookup_insert_ne by done. by apply H2.
      + intros ? ? [=]. }
  unfold lua_getReceiptValue, bind, call_read, call_write, ret, error_reply.
  destruct (cmd_hget now d key sid) as [[prev|]|e];
    [| |apply Hfin, only_key_refl].
  - set (d1 := cmd_set now d tk amount (Some 1)).
    assert (H1 : only_key tk d d1) by (apply only_key_insert, only_key_refl).
    destruct (cmd_decrby now d1 tk prev) as [d2|e] eqn:Hdec;
      [|by apply Hfin].
    apply cmd_decrby_only_key in Hdec.
    assert (H2 : only_key tk d d2)
      by (intros k Hk1; rewrite Hdec, H1 by done; reflexivity).
    destruct (cmd_get now d2 tk) as [[diff|]|e]; [|by apply Hfin..].
    destruct (starts_with_minus diff); [by apply Hfin|].
    specialize (Hset d2 H2).
    destruct (cmd_hset now d2 key sid amount) as [d3|e]; [exact Hset|].
    by apply Hfin.
  - specialize (Hset d (only_key_refl tk d)).
    destruct (cmd_hset now d key sid amount) as [d3|e]; [exact Hset|].
    apply Hfin, only_key_refl.
Qed.

(** X9. Whatever the store holds, whenever its two store calls are
    answered and however the call ends, a [getReceiptValue] call changes
    no key other than its scratch key and the record of its receipt, and
    every balance reads as before; a record that is a hash and unexpired
    when the script runs stays a hash with the same expiry and with
    every field other than the stream's own as before. *)
Theorem receipt_call_touches_only_its_record now_exists now_script uuid r
    (d : db) :
  (forall k, k <> tempKey uuid -> k <> receiptKey (nonce r) ->
     fst (getReceiptValue_timed now_exists now_script uuid r d) !! k = d !! k) /\
  (forall h ex,
     lookupKey now_script d (receiptKey (nonce r)) = Some (Entry (RHash h) ex) ->
     exists h', fst (getReceiptValue_timed now_exists now_script uuid r d) !! receiptKey (nonce r)
                  = Some (Entry (RHash h') ex)
                /\ forall f, f <> streamId r -> h' !! f = h !! f) /\
  (forall id now',
     balanceValue now' (fst (getReceiptValue_timed now_exists now_script uuid r d)) id
       = balanceValue now' d id).
Proof.
  assert (Hmain :
    (forall k, k <> tempKey uuid -> k <> receiptKey (nonce r) ->
       fst (getReceiptValue_timed now_exists now_script uuid r d) !! k = d !! k) /\
    (forall h ex,
       lookupKey now_script d (receiptKey (nonce r)) = Some (Entry (RHash h) ex) ->
       exists h', fst (getReceiptValue_timed now_exists now_script uuid r d) !! receiptKey (nonce r)
                    = Some (Entry (RHash h') ex)
                  /\ forall f, f <> streamId r -> h' !! f = h !! f)).
  { assert (Hsame : forall o : outcome Z,
      (forall k, k <> tempKey uuid -> k <> receiptKey (nonce r) ->
         fst (d, o) !! k = d !! k) /\
      (forall h ex,
         lookupKey now_script d (receiptKey (nonce r)) = Some (Entry (RHash h) ex) ->
         exists h', fst (d, o) !! receiptKey (nonce r)
                      = Some (Entry (RHash h') ex)
                    /\ forall f, f <> streamId r -> h' !! f = h !! f)).
    { intros o. split; [done|]. intros h ex [Hraw _]%lookupKey_Some.
      exists h. by split. }
    unfold getReceiptValue_timed.
    destruct (_ =? 1); [apply Hsame|].
    destruct (cmd_exists _ _ _); [|apply Hsame].
    pose proof (lua_getReceiptValue_frame now_script (receiptKey (nonce r))
                  (tempKey uuid) (streamId r)
                  (Long.toString (totalReceived r)) d
                  (tempKey_receiptKey _ _)) as H.
    destruct (lua_getReceiptValue _ _ _ _ _ _) as [d' [v|e]]; cbn [fst] in *;
      [|exact H].
    destruct (Long.fromString v); exact H. }
  destruct Hmain as [H1 H2]. split; [exact H1|]. split; [exact H2|].
  intros id now'. apply balanceValue_ext, H1.
  - apply balanceKey_tempKey.
  - apply balanceKey_receiptKey.
Qed.

(** ** Further properties of the ledger *)

(** X11. An amount that is negative or above 2^63-1 is refused by both
    ledger methods before the store is consulted, with the message that
    names the cause (negative amounts first), and the store is unchanged. *)
Theorem invalid_amount_rejected now id amount (d : db) :
  ~ 0 <= amount <= LLONG_MAX ->
  creditBalance now id amount d
    = (d, Rejected (JsError (if amount <? 0
                             then "credit amount must not be negative"
                             else "credit amount exceeds max 64 bit signed integer")))
  /\ spendBalance now id amount d
    = (d, Rejected (JsError (if amount <? 0
                             then "spend amount must not be negative"
                             else "spend amount exceeds max 64 bit signed integer"))).
Proof.
  intros Ha. unfold creditBalance, spendBalance.
  rewrite compare_MAX_VALUE. unfold Long.isNegative.
  destruct (Z.ltb_spec amount 0); [done|].
  by destruct (Z.ltb_spec LLONG_MAX amount); [|lia].
Qed.

Lemma invalid_amount_witness :
  creditBalance 1 "acct1" (2 ^ 63) Cases.balance15
    = (Cases.balance15,
       Rejected (JsError (if 2 ^ 63 <? 0
                          then "credit amount must not be negative"
                          else "credit amount exceeds max 64 bit signed integer")))
  /\ spendBalance 1 "acct1" (2 ^ 63) Cases.balance15
    = (Cases.balance15,
       Rejected (JsError (if 2 ^ 63 <? 0
                          then "spend amount must not be negative"
                          else "spend amount exceeds max 64 bit signed integer"))).
Proof.
  apply (invalid_amount_rejected 1 "acct1" (2 ^ 63) Cases.balance15).
  unfold LLONG_MAX. lia.
Defined.

(** X12. A credit of a valid amount (0 included) to an identifier without
    a balance record creates the record with exactly that amount and
    without expiry, and returns the amount: the balance reads as that
    amount at every later time. *)
Theorem credit_creates_balance now id amount (d : db) :
  0 <= amount <= LLONG_MAX ->
  cmd_get now d (balanceKey id) = Ok None ->
  creditBalance now id amount d
    = (<[balanceKey id := Entry (RString (ll2string amount)) None]> d,
       Resolved amount)
  /\ forall later,
       balanceValue later (fst (creditBalance now id amount d)) id = Some amount.
Proof.
  intros Ha Hg.
  assert (Hk : lookupKey now d (balanceKey id) = None).
  { unfold cmd_get in Hg.
    by destruct (lookupKey now d (balanceKey id)) as [[[?|?] ?]|]. }
  rewrite creditBalance_absent by done. split; [reflexivity|].
  intros later. cbn [fst]. unfold balanceValue.
  rewrite cmd_get_insert_string by done.
  by apply string2ll_ll2string, amount_in_range.
Qed.

(** A credit of 0 on the empty store. *)
Lemma credit_creates_witness :
  creditBalance 1 "acct1" 0 ∅
    = (<[balanceKey "acct1" := Entry (RString (ll2string 0)) None]> ∅, Resolved 0)
  /\ forall later,
       balanceValue later (fst (creditBalance 1 "acct1" 0 ∅)) "acct1" = Some 0.
Proof.
  apply (credit_creates_balance 1 "acct1" 0 ∅).
  - vm_compute. split; discriminate.
  - reflexivity.
Defined.

(** X13. On an existing balance [b >= 0], a credit that does not pass
    2^63-1 followed by a spend of the same amount gives back [b] and
    leaves the store exactly as it was before the credit. *)
Theorem credit_then_spend_restores now1 now2 id amount s ex b (d : db) :
  0 <= amount <= LLONG_MAX ->
  lookupKey now1 d (balanceKey id) = Some (Entry (RString s) ex) ->
  unexpired now2 ex = true ->
  string2ll s = Some b -> 0 <= b -> b + amount <= LLONG_MAX ->
  creditBalance now1 id amount d
    = (<[balanceKey id := Entry (RString (ll2string (b + amount))) ex]> d,
       Resolved (b + amount))
  /\ spendBalance now2 id amount (fst (creditBalance now1 id amount d))
     = (d, Resolved b).
Proof.
  intros Ha Hk Hl2 Hs Hb Hsum.
  destruct (string2ll_Some _ _ Hs) as [Htext _].
  apply lookupKey_Some in Hk as Hraw. destruct Hraw as [Hraw _].
  rewrite (creditBalance_present now1 id amount s ex b) by done.
  replace (in_range (b + amount)) with true by (symmetry; range).
  split; [reflexivity|]. cbn [fst].
  rewrite (spendBalance_present now2 id amount (ll2string (b + amount)) ex
             (b + amount)).
  - destruct (Z.ltb_spec (b + amount - amount) 0); [lia|].
    replace (b + amount - amount) with b by lia.
    rewrite insert_insert_eq, Htext. by rewrite (insert_id _ _ _ Hraw).
  - done.
  - rewrite lookupKey_insert_eq. unfold alive. cbn [e_expire]. by rewrite Hl2.
  - apply string2ll_ll2string. range.
  - unfold LLONG_MIN, LLONG_MAX in *. lia.
Qed.

Lemma credit_then_spend_witness :
  creditBalance 1 "acct1" 5 Cases.balance15
    = (<[balanceKey "acct1" := Entry (RString (ll2string (15 + 5))) None]>
         Cases.balance15,
       Resolved (15 + 5))
  /\ spendBalance 2 "acct1" 5 (fst (creditBalance 1 "acct1" 5 Cases.balance15))
     = (Cases.balance15, Resolved 15).
Proof.
  apply (credit_then_spend_restores 1 2 "acct1" 5 "15" None 15 Cases.balance15).
  - vm_compute. split; discriminate.
  - vm_compute. reflexivity.
  - reflexivity.
  - vm_compute. reflexivity.
  - lia.
  - vm_compute. discriminate.
Defined.

(** A balance of 2^63-1 and a credit of 1. *)
Lemma credit_overflow_witness :
  (snd (creditBalance 1 "acct1" 1 Cases.balance_max) = Rejected BalanceOverflow
   <-> LLONG_MAX < LLONG_MAX + 1) /\
  (LLONG_MAX < LLONG_MAX + 1 ->
   fst (creditBalance 1 "acct1" 1 Cases.balance_max) = Cases.balance_max).
Proof.
  apply (credit_overflow_on_integer_balance 1 "acct1" 1 Cases.balance_max LLONG_MAX).
  - vm_compute. split; discriminate.
  - vm_compute. reflexivity.
Defined.

(** ** Further properties of the proxy registry *)

(** X15. [createProxy] fails exactly when the URL parser refuses the
    expanded pointer; InvalidPointer is the only error it raises, and then
    the store is unchanged. *)
Theorem createProxy_rejects_unparsable
    (URL_href : string -> option string) (sha256_hex : string -> string)
    now pointer (d : db) :
  (snd (createProxy now URL_href sha256_hex pointer d) = Rejected InvalidPointer
   <-> URL_href (expandPointer pointer) = None)
  /\ (forall e, snd (createProxy now URL_href sha256_hex pointer d) = Rejected e ->
        e = InvalidPointer
        /\ fst (createProxy now URL_href sha256_hex pointer d) = d).
Proof.
  unfold createProxy.
  destruct (URL_href (expandPointer pointer)) as [href|]; cbn [fst snd].
  - split; [split; discriminate|]. intros e [=].
  - split; [done|]. by intros e [= <-].
Qed.

(** X16. The calls of the registry change no key but their own:
    [createProxy] leaves every key other than the pointer's digest,
    [deleteProxy] every key other than the one it is given, and
    [getPointer] the whole store. *)
Theorem proxy_calls_touch_only_their_key
    (URL_href : string -> option string) (sha256_hex : string -> string)
    now pointer hashedPointer k (d : db) :
  (k <> sha256_hex pointer ->
   fst (createProxy now URL_href sha256_hex pointer d) !! k = d !! k)
  /\ (k <> hashedPointer ->
      fst (deleteProxy hashedPointer d) !! k = d !! k)
  /\ fst (getPointer now hashedPointer d) = d.
Proof.
  split; [|split].
  - intros Hne. unfold createProxy.
    destruct (URL_href (expandPointer pointer)); [|done].
    cbn [fst]. unfold cmd_set. by rewrite lookup_insert_ne.
  - intros Hne. unfold deleteProxy, cmd_del. cbn [fst].
    by rewrite lookup_delete_ne.
  - unfold getPointer.
    destruct (cmd_get now d hashedPointer) as [[p|]|e]; [|done..].
    by destruct (String.eqb p "").
Qed.

(** X17. A pointer written with the shorthand [$rest] and the pointer
    [https://rest] are stored with the same URL, each under the digest of
    its own text. *)
Theorem shorthand_and_https_store_same_url
    (URL_href : string -> option string) (sha256_hex : string -> string)
    now1 now2 rest (d1 d2 : db) :
  URL_href ("https://" +:+ rest) <> None ->
  exists href,
    cmd_get now1 (fst (createProxy now1 URL_href sha256_hex (String "$" rest) d1))
      (sha256_hex (String "$" rest)) = Ok (Some href)
    /\ cmd_get now2
         (fst (createProxy now2 URL_href sha256_hex ("https://" +:+ rest) d2))
         (sha256_hex ("https://" +:+ rest)) = Ok (Some href).
Proof.
  intros Hurl. destruct (URL_href ("https://" +:+ rest)) as [href|] eqn:Hh; [|done].
  exists href. unfold createProxy.
  change (expandPointer (String "$" rest)) with ("https://" +:+ rest).
  change (expandPointer ("https://" +:+ rest)) with ("https://" +:+ rest).
  rewrite Hh. cbn [fst]. unfold cmd_set. cbn [fmap option_fmap option_map].
  split; by apply cmd_get_insert_string.
Qed.

Lemma shorthand_witness :
  exists href,
    cmd_get 1 (fst (createProxy 1 Scenario.href_of_https Cases.hex_stand_in
                      (String "$" "wallet.example/alice") ∅))
      (Cases.hex_stand_in (String "$" "wallet.example/alice")) = Ok (Some href)
    /\ cmd_get 2
         (fst (createProxy 2 Scenario.href_of_https Cases.hex_stand_in
                 ("https://" +:+ "wallet.example/alice") ∅))
         (Cases.hex_stand_in ("https://" +:+ "wallet.example/alice"))
       = Ok (Some href).
Proof.
  apply (shorthand_and_https_store_same_url Scenario.href_of_https
           Cases.hex_stand_in 1 2 "wallet.example/alice" ∅ ∅).
  vm_compute. discriminate.
Defined.

Lemma string2ll_nonempty (s : string) (z : Z) : string2ll s = Some z -> s <> "".
Proof. intros H ->. vm_compute in H. discriminate. Qed.

Lemma getPointer_absent now h (d : db) :
  lookupKey now d h = None -> getPointer now h d = (d, Rejected NotFound).
Proof. intros Hk. unfold getPointer, cmd_get. by rewrite Hk. Qed.

(** X18. For a key that the store does not hold: [getPointer] fails with
    NotFound, [deleteProxy] succeeds, and both leave the store as it was. *)
Theorem proxy_missing_key now hashedPointer (d : db) :
  d !! hashedPointer = None ->
  getPointer now hashedPointer d = (d, Rejected NotFound)
  /\ deleteProxy hashedPointer d = (d, Resolved tt).
Proof.
  intros Habs. split.
  - by apply getPointer_absent, lookupKey_raw_None.
  - unfold deleteProxy, cmd_del. by rewrite delete_id.
Qed.

Lemma proxy_missing_key_witness :
  getPointer 1 "c0ffee" Scenario.credited15
    = (Scenario.credited15, Rejected NotFound)
  /\ deleteProxy "c0ffee" Scenario.credited15
     = (Scenario.credited15, Resolved tt).
Proof.
  apply (proxy_missing_key 1 "c0ffee" Scenario.credited15).
  vm_compute. reflexivity.
Defined.

(** X19. The registry's lookup and delete take the key as it is given,
    without a prefix of their own: given the key of an existing balance,
    [getPointer] returns the balance text as if it were a URL, and
    [deleteProxy] removes the balance, so that a later spend fails with
    BalanceNotFound. *)
Theorem proxy_calls_reach_balance_keys now now' id amount s ex b (d : db) :
  lookupKey now d (balanceKey id) = Some (Entry (RString s) ex) ->
  string2ll s = Some b ->
  0 <= amount <= LLONG_MAX ->
  getPointer now (balanceKey id) d = (d, Resolved s)
  /\ spendBalance now' id amount (fst (deleteProxy (balanceKey id) d))
     = (delete (balanceKey id) d, Rejected BalanceNotFound).
Proof.
  intros Hk Hs Ha. split.
  - unfold getPointer, cmd_get. rewrite Hk.
    pose proof (string2ll_nonempty _ _ Hs) as Hne.
    by destruct (String.eqb_spec s "").
  - unfold deleteProxy, cmd_del. cbn [fst].
    apply spendBalance_absent; [done|].
    unfold lookupKey. by rewrite lookup_delete_eq.
Qed.

Lemma proxy_calls_reach_balance_witness :
  getPointer 1 (balanceKey "acct1") Cases.balance15
    = (Cases.balance15, Resolved "15")
  /\ spendBalance 2 "acct1" 5
       (fst (deleteProxy (balanceKey "acct1") Cases.balance15))
     = (delete (balanceKey "acct1") Cases.balance15, Rejected BalanceNotFound).
Proof.
  apply (proxy_calls_reach_balance_keys 1 2 "acct1" 5 "15" None 15
           Cases.balance15).
  - vm_compute. reflexivity.
  - vm_compute. reflexivity.
  - vm_compute. split; discriminate.
Defined.

Lemma hex_text_not_prefixed (s rest : string) :
  hex_text s = true -> s <> String "i" rest.
Proof. intros H ->. cbn in H. discriminate. Qed.

(** X20. When the digest of the pointer is a hexadecimal text, as a
    SHA-256 hex digest is, [createProxy] changes no balance, no receipt
    record and no scratch key, all of which start with "ilp". *)
Theorem hex_digest_keeps_ledger_and_receipts
    (URL_href : string -> option string) (sha256_hex : string -> string)
    now pointer (d : db) :
  hex_text (sha256_hex pointer) = true ->
  (forall id, fst (createProxy now URL_href sha256_hex pointer d) !! balanceKey id
              = d !! balanceKey id)
  /\ (forall n, fst (createProxy now URL_href sha256_hex pointer d) !! receiptKey n
                = d !! receiptKey n)
  /\ (forall u, fst (createProxy now URL_href sha256_hex pointer d) !! tempKey u
                = d !! tempKey u).
Proof.
  intros Hhex.
  assert (Hother : forall k rest, k = String "i" rest ->
    fst (createProxy now URL_href sha256_hex pointer d) !! k = d !! k).
  { intros k rest ->. unfold createProxy.
    destruct (URL_href (expandPointer pointer)); [|done].
    cbn [fst]. unfold cmd_set. apply lookup_insert_ne.
    by apply hex_text_not_prefixed. }
  split; [|split]; intros x; eapply Hother; reflexivity.
Qed.

Lemma hex_digest_witness :
  (forall id, fst (createProxy 1 Scenario.href_of_https Cases.hex_stand_in
                     "$wallet.example/alice" Scenario.credited15) !! balanceKey id
              = Scenario.credited15 !! balanceKey id)
  /\ (forall n, fst (createProxy 1 Scenario.href_of_https Cases.hex_stand_in
                       "$wallet.example/alice" Scenario.credited15) !! receiptKey n
                = Scenario.credited15 !! receiptKey n)
  /\ (forall u, fst (createProxy 1 Scenario.href_of_https Cases.hex_stand_in
                       "$wallet.example/alice" Scenario.credited15) !! tempKey u
                = Scenario.credited15 !! tempKey u).
Proof.
  apply (hex_digest_keeps_ledger_and_receipts Scenario.href_of_https
           Cases.hex_stand_in 1 "$wallet.example/alice" Scenario.credited15).
  vm_compute. reflexivity.
Defined.

(** ** [flushdb] *)

(** X21. After [flushdb], whatever the store held: no receipt is
    registered (a receipt is credited 0), no balance exists (a spend fails
    with BalanceNotFound, a credit starts again from 0) and no pointer is
    known. *)
Theorem flushdb_forgets_everything now uuid r id amount hashedPointer (d : db) :
  totalReceived r <= LLONG_MAX ->
  0 <= amount <= LLONG_MAX ->
  getReceiptValue now uuid r (fst (flushdb d)) = (∅, Resolved 0)
  /\ spendBalance now id amount (fst (flushdb d)) = (∅, Rejected BalanceNotFound)
  /\ getPointer now hashedPointer (fst (flushdb d)) = (∅, Rejected NotFound)
  /\ snd (creditBalance now id amount (fst (flushdb d))) = Resolved amount.
Proof.
  intros Ht Ha. unfold flushdb. cbn [fst].
  assert (Hnone : forall k, lookupKey now (∅ : db) k = None)
    by (intros k; apply lookupKey_raw_None, lookup_empty).
  split; [|split; [|split]].
  - apply getReceiptValue_absent; [|done]. unfold cmd_exists. by rewrite Hnone.
  - by apply spendBalance_absent.
  - by apply getPointer_absent.
  - by rewrite creditBalance_absent.
Qed.

Lemma flushdb_witness :
  getReceiptValue 5 "uuid-5" (Scenario.receipt "s1" 20) (fst (flushdb Scenario.credited15))
    = (∅, Resolved 0)
  /\ spendBalance 5 "acct1" 1 (fst (flushdb Scenario.credited15))
     = (∅, Rejected BalanceNotFound)
  /\ getPointer 5 "c0ffee" (fst (flushdb Scenario.credited15))
     = (∅, Rejected NotFound)
  /\ snd (creditBalance 5 "acct1" 1 (fst (flushdb Scenario.credited15)))
     = Resolved 1.
Proof.
  apply (flushdb_forgets_everything 5 "uuid-5" (Scenario.receipt "s1" 20)
           "acct1" 1 "c0ffee" Scenario.credited15).
  - vm_compute. discriminate.
  - vm_compute. split; discriminate.
Defined.
